(** * Video Sorter: a shallow embedding of [main.py] and its properties

    The program is a single controller class ([VideoLabeler]) around three
    module-level helpers ([load_labels], [ensure_unique_path],
    [read_logged_paths]).  The embedding keeps the names of the source and
    threads the mutable attributes of [self], the filesystem and the log file
    through an explicit [World] record.

    Modelling conventions.
    - A [pathlib.Path] is represented by its normalised string ([str(p)]), so
      that [str] and [Path(...)] are the identity on normal forms.  The
      accessors [parent], [name], [stem], [suffix] and the [/] operator are
      the POSIX flavour, with [suffix]/[stem] as in Python 3.8 to 3.13.
    - The filesystem is a finite map from paths to nodes (regular file with
      its content, or directory); the two roots ["."] and ["/"] always exist
      as directories.  A set of locked paths makes operations on them raise
      [PermissionError], as a file held open by another process does.
    - The log file is kept apart from that map, as the list of rows
      [csv.reader] yields for it, or [None] while the file does not exist;
      the file operations of the controller never touch the log path.
    - Exceptions are values of [Exn]; a slot that lets one escape returns
      [Raised] with the state reached so far.
    - [datetime.utcnow().isoformat()] is the parameter [now] of the slots
      that log.  Of the widgets only the player (source, playing, rate),
      the texts set on the status label and the warning dialogs are kept;
      the progress label, the slider and the time display are left out.  *)

From Stdlib Require Import String Ascii List Arith Lia QArith_base.
From stdpp Require Import base gmap strings list sorting pretty.

Local Open Scope string_scope.
Local Open Scope list_scope.
Local Open Scope nat_scope.

(** ** Paths *)

Module PathLib.

Abbreviation Path := string (only parsing).

(** [s.rpartition(c)]: the text before and after the last [c] of [s]. *)
Fixpoint rpartition (c : ascii) (s : string) : option (string * string) :=
  match s with
  | EmptyString => None
  | String a s' =>
      match rpartition c s' with
      | Some (b, t) => Some (String a b, t)
      | None => if Ascii.eqb a c then Some (EmptyString, s') else None
      end
  end.

Definition is_root (p : Path) : bool :=
  bool_decide (p = ".") || bool_decide (p = "/").

Definition is_absolute (p : Path) : bool :=
  match p with
  | String a _ => Ascii.eqb a "/"
  | EmptyString => false
  end.

Definition parent (p : Path) : Path :=
  match rpartition "/" p with
  | None => "."
  | Some (EmptyString, _) => "/"
  | Some (b, _) => b
  end.

Definition name (p : Path) : string :=
  match rpartition "/" p with
  | None => if bool_decide (p = ".") then "" else p
  | Some (_, t) => t
  end.

(** The last dot of the name starts the suffix unless it is the first or
    the last character of the name. *)
Definition suffix (p : Path) : string :=
  match rpartition "." (name p) with
  | Some (String _ _, String c t) => String "." (String c t)
  | _ => ""
  end.

Definition stem (p : Path) : string :=
  match rpartition "." (name p) with
  | Some (String a b, String _ _) => String a b
  | _ => name p
  end.

(** [a / b] *)
Definition joinpath (a b : Path) : Path :=
  if is_absolute b then b
  else if bool_decide (b = ".") then a
  else if bool_decide (a = ".") then b
  else if bool_decide (a = "/") then "/" +:+ b
  else a +:+ "/" +:+ b.

(** [str.lower] on the ASCII letters. *)
Definition lower_ascii (c : ascii) : ascii :=
  let n := nat_of_ascii c in
  if ((65 <=? n) && (n <=? 90))%nat then ascii_of_nat (n + 32) else c.

Fixpoint lower (s : string) : string :=
  match s with
  | EmptyString => EmptyString
  | String c s' => String (lower_ascii c) (lower s')
  end.

End PathLib.
Import PathLib.

(** ** Formatting of the collision counter *)

Fixpoint zeros (k : nat) : string :=
  match k with
  | 0 => ""
  | S k' => String "0" (zeros k')
  end.

(** [f"{counter:03d}"]: decimal, padded with zeros to at least three
    characters. *)
Definition format_03d (counter : nat) : string :=
  let s := pretty counter in
  zeros (3 - String.length s) +:+ s.

(** ** The filesystem *)

Inductive Node :=
| File (content : string)
| Dir.

Inductive Exn :=
| PermissionError
| FileNotFoundError
| FileExistsError
| NotADirectoryError
| IsADirectoryError
| ShutilError
| SameFileError
| NotModelled.

Inductive Outcome (A : Type) :=
| Ok (a : A)
| Raise (e : Exn).
Arguments Ok {A} a.
Arguments Raise {A} e.

Global Instance Node_eq_dec : EqDecision Node.
Proof. solve_decision. Defined.

Global Instance Exn_eq_dec : EqDecision Exn.
Proof. solve_decision. Defined.

Record FS := mkFS {
  nodes : gmap string Node;
  locked : gset string
}.

Definition fs_lookup (fs : FS) (p : Path) : option Node :=
  if is_root p then Some Dir else nodes fs !! p.

(** [p.exists()], [p.is_file()], [p.is_dir()] *)
Definition path_exists (fs : FS) (p : Path) : bool :=
  match fs_lookup fs p with Some _ => true | None => false end.

Definition is_file (fs : FS) (p : Path) : bool :=
  match fs_lookup fs p with Some (File _) => true | _ => false end.

Definition is_dir (fs : FS) (p : Path) : bool :=
  match fs_lookup fs p with Some Dir => true | _ => false end.

Definition fs_set (fs : FS) (p : Path) (n : Node) : FS :=
  mkFS (<[p := n]> (nodes fs)) (locked fs).

Definition fs_remove (fs : FS) (p : Path) : FS :=
  mkFS (delete p (nodes fs)) (locked fs).

(** [d.mkdir(parents=True, exist_ok=True)].  [os.mkdir] fails when the
    directory exists (ignored if it is a directory), when its parent is
    missing (the parents are then made first) or is not a directory.  The
    fuel bounds the climb to the root; the length of the path is enough. *)
Fixpoint mkdir_parents (fuel : nat) (fs : FS) (d : Path) : Outcome FS :=
  match fs_lookup fs d with
  | Some Dir => Ok fs
  | Some (File _) => Raise FileExistsError
  | None =>
      if bool_decide (d ∈ locked fs) then Raise PermissionError
      else
        match fs_lookup fs (parent d) with
        | Some Dir => Ok (fs_set fs d Dir)
        | Some (File _) => Raise NotADirectoryError
        | None =>
            match fuel with
            | 0 => Raise FileNotFoundError
            | S fuel' =>
                match mkdir_parents fuel' fs (parent d) with
                | Ok fs' => Ok (fs_set fs' d Dir)
                | Raise e => Raise e
                end
            end
        end
  end.

Definition mkdir (fs : FS) (d : Path) : Outcome FS :=
  mkdir_parents (String.length d) fs d.

(** Where [shutil.move] and [shutil.copy2] really write: into the
    destination when it is a directory. *)
Definition real_dst (fs : FS) (src dst : Path) : Path :=
  if is_dir fs dst then joinpath dst (name src) else dst.

(** [shutil.move(src, dst)] for a regular file [src]: a rename, which
    replaces a regular file already at the destination.  Moving a directory
    tree is outside the model. *)
Definition shutil_move (fs : FS) (src dst : Path) : Outcome FS :=
  match fs_lookup fs src with
  | None => Raise FileNotFoundError
  | Some Dir => Raise NotModelled
  | Some (File c) =>
      let rd := real_dst fs src dst in
      if is_dir fs dst && path_exists fs rd then Raise ShutilError
      else if bool_decide (src ∈ locked fs) || bool_decide (rd ∈ locked fs)
      then Raise PermissionError
      else if negb (is_dir fs (parent rd)) then Raise FileNotFoundError
      else Ok (fs_set (fs_remove fs src) rd (File c))
  end.

(** [shutil.copy2(src, dst)] *)
Definition shutil_copy2 (fs : FS) (src dst : Path) : Outcome FS :=
  match fs_lookup fs src with
  | None => Raise FileNotFoundError
  | Some Dir => Raise IsADirectoryError
  | Some (File c) =>
      let rd := real_dst fs src dst in
      if bool_decide (src = rd) then Raise SameFileError
      else if bool_decide (src ∈ locked fs) || bool_decide (rd ∈ locked fs)
      then Raise PermissionError
      else if is_dir fs rd then Raise IsADirectoryError
      else if negb (is_dir fs (parent rd)) then Raise FileNotFoundError
      else Ok (fs_set fs rd (File c))
  end.

(** ** Module-level helpers of [main.py] *)

Definition SUPPORTED_EXTENSIONS : gset string :=
  {[ ".mp4"; ".mov"; ".avi"; ".mkv"; ".mpg"; ".mpeg"; ".wmv" ]}.

(** [parent / f"{stem}__{counter:03d}{suffix}"] *)
Definition candidate (dest_path : Path) (counter : nat) : Path :=
  joinpath (parent dest_path)
    (stem dest_path +:+ "__" +:+ format_03d counter +:+ suffix dest_path).

(** The [while True] loop of [ensure_unique_path]; [None] when the fuel
    runs out before a free candidate is met. *)
Fixpoint unique_loop (fuel : nat) (fs : FS) (dest_path : Path) (counter : nat)
  : option Path :=
  match fuel with
  | 0 => None
  | S fuel' =>
      let c := candidate dest_path counter in
      if negb (path_exists fs c) then Some c
      else unique_loop fuel' fs dest_path (counter + 1)
  end.

Definition ensure_unique_path_fuel (fuel : nat) (fs : FS) (dest_path : Path)
  : option Path :=
  if negb (path_exists fs dest_path) then Some dest_path
  else unique_loop fuel fs dest_path 1.

(** Three more iterations than the filesystem has entries always reach a
    free candidate (see [ensure_unique_path_total]). *)
Definition ensure_unique_path (fs : FS) (dest_path : Path) : option Path :=
  ensure_unique_path_fuel (size (nodes fs) + 3) fs dest_path.

(** *** The log file as [csv] sees it *)

Abbreviation Row := (list string) (only parsing).

Definition log_header : Row :=
  ["timestamp"; "key"; "label"; "original_path"; "dest_path"; "action"].

(** One row of [csv.DictReader]: [dict(zip(fieldnames, row))], with
    [None] for the field names the row is too short for. *)
Definition dict_of_row (fieldnames row : Row) : gmap string (option string) :=
  let d := foldl (λ d kv, <[kv.1 := Some kv.2]> d) ∅ (zip fieldnames row) in
  foldl (λ d k, <[k := None]> d) d (drop (length row) fieldnames).

(** [row.get(k)] *)
Definition row_get (d : gmap string (option string)) (k : string)
  : option string :=
  match d !! k with
  | Some (Some v) => Some v
  | _ => None
  end.

(** The [for row in reader] loop of [read_logged_paths]; [DictReader]
    passes over empty rows. *)
Fixpoint read_rows (fieldnames : Row) (rows : list Row) (seen : gset string)
  : gset string :=
  match rows with
  | [] => seen
  | row :: rest =>
      if bool_decide (row = []) then read_rows fieldnames rest seen
      else
        match row_get (dict_of_row fieldnames row) "original_path" with
        | Some v =>
            if bool_decide (v = "") then read_rows fieldnames rest seen
            else read_rows fieldnames rest ({[ v ]} ∪ seen)
        | None => read_rows fieldnames rest seen
        end
  end.

(** The first row of the file gives [DictReader] its field names. *)
Definition read_logged_paths (log : option (list Row)) : gset string :=
  match log with
  | None => ∅
  | Some [] => ∅
  | Some (fieldnames :: rows) => read_rows fieldnames rows ∅
  end.

(** *** Labels *)

Record Label := mkLabel {
  label_key : string;
  label_name : string;
  label_dest : Path
}.

(** The items of the JSON configuration. *)
Record ConfigItem := mkItem {
  item_key : string;
  item_name : string;
  item_dest : string
}.

Definition load_labels (data : list ConfigItem) (sorted_root : Path)
  : list Label :=
  map (λ item,
         let dest := item_dest item in
         let dest := if negb (is_absolute dest) then joinpath sorted_root dest
                     else dest in
         mkLabel (item_key item) (item_name item) dest)
      data.

(** [args.sorted_root or source_dir.parent / "sorted"] in [main]; a [Path]
    is never falsy. *)
Definition main_sorted_root (arg : option Path) (source_dir : Path) : Path :=
  match arg with
  | Some r => r
  | None => joinpath (parent source_dir) "sorted"
  end.

(** ** The controller [VideoLabeler] *)

Inductive Mode := MoveMode | CopyMode.

Definition mode_str (m : Mode) : string :=
  match m with MoveMode => "move" | CopyMode => "copy" end.

Record World := mkWorld {
  source_dir : Path;
  move_mode : Mode;
  fs : FS;
  log : option (list Row);
  queue : list Path;                  (* deque, front first *)
  current_path : option Path;
  undo_stack : list (Path * Path);    (* Python list, top last *)
  speed_index : nat;
  player_source : option Path;        (* what the player has loaded *)
  playing : bool;
  playback_rate : Q;
  status_log : list string;           (* texts set on status_label, latest first *)
  warnings : list string              (* QMessageBox.warning dialogs shown *)
}.

Definition set_fs (x : FS) (w : World) : World :=
  mkWorld (source_dir w) (move_mode w) x (log w) (queue w) (current_path w)
    (undo_stack w) (speed_index w) (player_source w) (playing w)
    (playback_rate w) (status_log w) (warnings w).

Definition set_log (x : option (list Row)) (w : World) : World :=
  mkWorld (source_dir w) (move_mode w) (fs w) x (queue w) (current_path w)
    (undo_stack w) (speed_index w) (player_source w) (playing w)
    (playback_rate w) (status_log w) (warnings w).

Definition set_queue (x : list Path) (w : World) : World :=
  mkWorld (source_dir w) (move_mode w) (fs w) (log w) x (current_path w)
    (undo_stack w) (speed_index w) (player_source w) (playing w)
    (playback_rate w) (status_log w) (warnings w).

Definition set_current_path (x : option Path) (w : World) : World :=
  mkWorld (source_dir w) (move_mode w) (fs w) (log w) (queue w) x
    (undo_stack w) (speed_index w) (player_source w) (playing w)
    (playback_rate w) (status_log w) (warnings w).

Definition set_undo_stack (x : list (Path * Path)) (w : World) : World :=
  mkWorld (source_dir w) (move_mode w) (fs w) (log w) (queue w)
    (current_path w) x (speed_index w) (player_source w) (playing w)
    (playback_rate w) (status_log w) (warnings w).

Definition set_speed (i : nat) (r : Q) (w : World) : World :=
  mkWorld (source_dir w) (move_mode w) (fs w) (log w) (queue w)
    (current_path w) (undo_stack w) i (player_source w) (playing w)
    r (status_log w) (warnings w).

Definition set_player (src : option Path) (play : bool) (w : World) : World :=
  mkWorld (source_dir w) (move_mode w) (fs w) (log w) (queue w)
    (current_path w) (undo_stack w) (speed_index w) src play
    (playback_rate w) (status_log w) (warnings w).

Definition set_status (msg : string) (w : World) : World :=
  mkWorld (source_dir w) (move_mode w) (fs w) (log w) (queue w)
    (current_path w) (undo_stack w) (speed_index w) (player_source w)
    (playing w) (playback_rate w) (msg :: status_log w) (warnings w).

Definition warn (msg : string) (w : World) : World :=
  mkWorld (source_dir w) (move_mode w) (fs w) (log w) (queue w)
    (current_path w) (undo_stack w) (speed_index w) (player_source w)
    (playing w) (playback_rate w) (status_log w) (msg :: warnings w).

(** What a slot leaves behind: it returns, or an exception escapes it. *)
Inductive Result :=
| Done (w : World)
| Raised (e : Exn) (w : World).

Definition speed_steps : list Q :=
  [1 # 2; 1 # 1; 3 # 2; 2 # 1; 4 # 1; 6 # 1; 8 # 1; 10 # 1]%Q.

(** [player.stop()] and [player.setSource(QUrl())] *)
Definition release_media (w : World) : World := set_player None false w.

(** [source_dir.iterdir()]: the entries directly under [d], in the order
    the map lists them. *)
Definition iterdir (fs : FS) (d : Path) : list Path :=
  filter (λ p, parent p = d ∧ p ≠ d) (elements (dom (nodes fs))).

(** [sorted(...)] on paths. *)
Definition sorted (l : list Path) : list Path := merge_sort String.le l.

(** The [for path in sorted(...)] loop of [build_queue], [paths] being the
    list built so far. *)
Fixpoint build_queue_loop (fs : FS) (logged : gset string)
    (todo : list Path) (paths : list Path) : list Path :=
  match todo with
  | [] => paths
  | path :: rest =>
      if is_file fs path
         && bool_decide (lower (suffix path) ∈ SUPPORTED_EXTENSIONS)
      then
        if bool_decide (path ∈ logged) then build_queue_loop fs logged rest paths
        else build_queue_loop fs logged rest (paths ++ [path])%list
      else build_queue_loop fs logged rest paths
  end.

Definition build_queue (source_dir : Path) (fs : FS) (log : option (list Row))
  : list Path :=
  let logged := read_logged_paths log in
  build_queue_loop fs logged (sorted (iterdir fs source_dir)) [].

Definition ensure_log_header (w : World) : World :=
  match log w with
  | Some _ => w
  | None => set_log (Some [log_header]) w
  end.

(** Opening with mode ["a"] creates the file when it is missing; [now] is
    [datetime.utcnow().isoformat()]. *)
Definition log_action (now key label : string) (original dest : Path)
    (action : string) (w : World) : World :=
  set_log (Some (default [] (log w)
                 ++ [[now; key; label; original; dest; action]])%list) w.

Definition load_next (w : World) : World :=
  match queue w with
  | [] =>
      set_player (player_source w) false
        (set_status "All videos labeled." (set_current_path None w))
  | p :: rest =>
      set_player (Some p) true
        (set_status ("Loaded: " +:+ name p)
           (set_queue rest (set_current_path (Some p) w)))
  end.

Definition cycle_speed (w : World) : Result :=
  let i := (speed_index w + 1) mod length speed_steps in
  match speed_steps !! i with
  | Some rate => Done (set_speed i rate w)
  | None => Raised NotModelled w
  end.

Definition skip_current (now : string) (w : World) : Result :=
  match current_path w with
  | None => Done w
  | Some cur =>
      Done (load_next (log_action now "" "skip" cur cur "skip" (release_media w)))
  end.

(** [shutil.copy2] or [shutil.move], by [self.move_mode]. *)
Definition transfer (m : Mode) (fs : FS) (src dst : Path) : Outcome FS :=
  match m with
  | CopyMode => shutil_copy2 fs src dst
  | MoveMode => shutil_move fs src dst
  end.

Definition move_failed (cur : Path) : string :=
  "Could not move file (is it open elsewhere?): " +:+ cur.

Definition label_current (now : string) (label : Label) (w : World) : Result :=
  match current_path w with
  | None => Done w
  | Some cur =>
      let w1 := release_media w in
      let dest_dir := label_dest label in
      match mkdir (fs w1) dest_dir with
      | Raise e => Raised e w1
      | Ok fs1 =>
          let w2 := set_fs fs1 w1 in
          match ensure_unique_path fs1 (joinpath dest_dir (name cur)) with
          | None => Raised NotModelled w2
          | Some target =>
              match transfer (move_mode w) fs1 cur target with
              | Raise PermissionError =>
                  Done (set_player (Some cur) true (warn (move_failed cur) w2))
              | Raise e => Raised e w2
              | Ok fs2 =>
                  let w3 := set_undo_stack (undo_stack w2 ++ [(cur, target)])%list
                              (set_fs fs2 w2) in
                  Done (load_next
                          (log_action now (label_key label) (label_name label)
                             cur target (mode_str (move_mode w)) w3))
              end
          end
      end
  end.

Definition remove_last_log_entry (w : World) : World :=
  match log w with
  | None => w
  | Some rows =>
      if decide (length rows ≤ 1) then w
      else set_log (Some (removelast rows)) w
  end.

(** [list.pop()] *)
Definition list_pop {A} (l : list A) : option (A * list A) :=
  match last l with
  | None => None
  | Some x => Some (x, removelast l)
  end.

Definition undo_last (w : World) : Result :=
  match list_pop (undo_stack w) with
  | None => Done (set_status "Nothing to undo." w)
  | Some ((original, dest), rest) =>
      let w1 := set_undo_stack rest (release_media w) in
      let finish (w2 : World) : Result :=
        Done (set_player (Some original) true
                (set_status ("Undid: " +:+ name original)
                   (set_queue (original :: queue w2)
                      (remove_last_log_entry w2)))) in
      if path_exists (fs w1) dest then
        match mkdir (fs w1) (parent dest) with
        | Raise e => Raised e w1
        | Ok fs1 =>
            match shutil_move fs1 dest original with
            | Raise e => Raised e (set_fs fs1 w1)
            | Ok fs2 => finish (set_fs fs2 w1)
            end
        end
      else finish w1
  end.

Definition handle_media_status_invalid (w : World) : World :=
  load_next (warn "Cannot play this file." w).

(** [VideoLabeler.__init__]: the attributes, then [build_queue],
    [ensure_log_header] and [load_next]. *)
Definition init (source_dir : Path) (mode : Mode) (fs : FS)
    (log : option (list Row)) : World :=
  load_next
    (ensure_log_header
       (mkWorld source_dir mode fs log (build_queue source_dir fs log) None
          [] 1 None false (1 # 1)%Q ["Ready"] [])).

(** ** States used as concrete inputs *)

Module Samples.

Definition fs0 : FS :=
  mkFS (list_to_map [("src", Dir); ("src/a.mp4", File "AAAA");
                     ("src/b.mp4", File "BBBB")]) ∅.

(** The same directory with [src/a.mp4] held open by another process. *)
Definition fs_locked : FS := mkFS (nodes fs0) {[ "src/a.mp4" ]}.

Definition keep : Label := mkLabel "1" "keep" "sorted/keep".

(** Just after start-up: [src/a.mp4] is current, [src/b.mp4] is queued. *)
Definition w0 : World := init "src" MoveMode fs0 None.

Definition w0_copy : World := init "src" CopyMode fs0 None.

Definition w_locked : World := init "src" MoveMode fs_locked None.

(** Nothing left to label and nothing to undo. *)
Definition w_idle : World := init "src" MoveMode (mkFS ∅ ∅) None.

End Samples.

(** ** Auxiliary definitions for the statements *)

(** The state a slot leaves, however it ended. *)
Definition result_world (r : Result) : World :=
  match r with
  | Done w => w
  | Raised _ w => w
  end.

(** The log file exists and its first row is the header. *)
Definition has_header (l : option (list Row)) : Prop :=
  ∃ rest, l = Some (log_header :: rest).

(** The player runs at the rate the speed index selects. *)
Definition speed_ok (w : World) : Prop :=
  speed_steps !! speed_index w = Some (playback_rate w).

(** [n] presses of the speed button. *)
Fixpoint cycle_speed_n (n : nat) (w : World) : Result :=
  match n with
  | 0 => Done w
  | S n' =>
      match cycle_speed w with
      | Done w' => cycle_speed_n n' w'
      | r => r
      end
  end.

(** The three decimal digits of a number below 1000. *)
Definition digits3 (x : N) : string :=
  String (pretty_N_char (x `div` 100))
    (String (pretty_N_char ((x `div` 10) `mod` 10))
       (String (pretty_N_char (x `mod` 10)) ""))%N.

Module Collisions.

(** A directory where [d/a.mp4] and its first hundred numbered variants
    are taken. *)
Definition fs101 : FS :=
  mkFS (list_to_map
          (("d", Dir) :: ("d/a.mp4", File "")
           :: map (λ k, (candidate "d/a.mp4" k, File "")) (seq 1 100))) ∅.

End Collisions.

(** What [build_queue] keeps of the directory listing. *)
Definition queued (fs : FS) (logged : gset string) (p : Path) : Prop :=
  is_file fs p = true
  ∧ lower (suffix p) ∈ SUPPORTED_EXTENSIONS
  ∧ p ∉ logged.

Global Instance queued_dec fs logged p : Decision (queued fs logged p).
Proof. unfold queued. apply _. Defined.

(** ** The time display and the seek slider *)

(** [f"{n:02d}"]: the sign counts in the width, so a negative number is
    never padded. *)
Definition format_02d (n : Z) : string :=
  let s := pretty n in
  if (n <? 0)%Z then s else zeros (2 - String.length s) +:+ s.

(** [//] and [%] round towards minus infinity, as [Z.div] and [Z.modulo]
    do for a positive divisor. *)
Definition format_ms (ms : Z) : string :=
  let total_seconds := (ms `div` 1000)%Z in
  let mins := (total_seconds `div` 60)%Z in
  let secs := (total_seconds `mod` 60)%Z in
  format_02d mins +:+ ":" +:+ format_02d secs.

(** The two decimal digits of a number below 100. *)
Definition digits2 (x : N) : string :=
  String (pretty_N_char (x `div` 10)) (String (pretty_N_char (x `mod` 10)) "")%N.

(** [f"{self.format_ms(a)} / {self.format_ms(b)}"] *)
Definition time_text (a b : Z) : string :=
  format_ms a +:+ " / " +:+ format_ms b.

Module Seek.

(** What the slots of the slider ask of the widgets and of the player. *)
Inductive Call :=
| SliderSetValue (v : Z)
| SliderSetRange (lo hi : Z)
| TimeLabelSetText (s : string)
| PlayerSetPosition (v : Z).

(** The attributes the slots of the slider use, and the calls made so far,
    latest first. *)
Record State := mkState {
  scrubbing : bool;
  duration_ms : Z;
  calls : list Call
}.

Definition call (c : Call) (s : State) : State :=
  mkState (scrubbing s) (duration_ms s) (c :: calls s).

Definition on_slider_pressed (s : State) : State :=
  mkState true (duration_ms s) (calls s).

(** [value] is [self.seek_slider.value()]. *)
Definition on_slider_released (value : Z) (s : State) : State :=
  let s1 := if (0 <? duration_ms s)%Z then call (PlayerSetPosition value) s
            else s in
  mkState false (duration_ms s1) (calls s1).

Definition on_slider_moved (value : Z) (s : State) : State :=
  call (TimeLabelSetText (time_text value (duration_ms s))) s.

Definition update_position (position : Z) (s : State) : State :=
  if negb (scrubbing s) then
    call (TimeLabelSetText (time_text position (duration_ms s)))
      (call (SliderSetValue position) s)
  else s.

Definition update_duration (duration : Z) (s : State) : State :=
  let s1 := mkState (scrubbing s) duration (calls s) in
  call (TimeLabelSetText (time_text 0 duration))
    (call (SliderSetRange 0 (if (0 <? duration)%Z then duration else 0)) s1).

(** The slider part of [release_media]. *)
Definition release_media (s : State) : State :=
  let s1 := call (TimeLabelSetText "00:00 / 00:00")
              (call (SliderSetValue 0) s) in
  mkState false 0 (calls s1).

(** The signals that reach these slots. *)
Inductive Event :=
| SliderPressed
| SliderReleased (value : Z)
| SliderMoved (value : Z)
| PositionChanged (position : Z)
| DurationChanged (duration : Z)
| MediaReleased.

Definition handle (e : Event) (s : State) : State :=
  match e with
  | SliderPressed => on_slider_pressed s
  | SliderReleased v => on_slider_released v s
  | SliderMoved v => on_slider_moved v s
  | PositionChanged p => update_position p s
  | DurationChanged d => update_duration d s
  | MediaReleased => release_media s
  end.

Definition run (evs : list Event) (s : State) : State :=
  foldl (λ s e, handle e s) s evs.

(** A signal that can arrive while the user holds the slider. *)
Definition during_drag (e : Event) : bool :=
  match e with
  | SliderMoved _ | PositionChanged _ | DurationChanged _ => true
  | _ => false
  end.

(** A call that moves the slider or the playback position. *)
Definition moves (c : Call) : bool :=
  match c with
  | SliderSetValue _ | PlayerSetPosition _ => true
  | _ => false
  end.

End Seek.

(** ** Sessions *)

(** What the user and the player can trigger on the window. *)
Inductive Action :=
| PressLabel (now : string) (label : Label)
| PressSkip (now : string)
| PressUndo
| PressSpeed
| InvalidMedia.

(** One slot; an exception that escapes a slot is reported by the event
    loop, which goes on with the state the slot left. *)
Definition step (w : World) (a : Action) : World :=
  match a with
  | PressLabel now label => result_world (label_current now label w)
  | PressSkip now => result_world (skip_current now w)
  | PressUndo => result_world (undo_last w)
  | PressSpeed => result_world (cycle_speed w)
  | InvalidMedia => handle_media_status_invalid w
  end.

Definition run (acts : list Action) (w : World) : World := foldl step w acts.



(** ** Basic facts *)


Lemma fs_load_next w : fs (load_next w) = fs w.
Proof. unfold load_next. by destruct (queue w). Qed.

Lemma undo_stack_load_next w : undo_stack (load_next w) = undo_stack w.
Proof. unfold load_next. by destruct (queue w). Qed.



Lemma has_header_app rows row :
  has_header (Some rows) → has_header (Some (rows ++ [row])).
Proof. intros [rest [= ->]]. by exists (rest ++ [row]). Qed.





Lemma list_pop_snoc {A} (l : list A) x : list_pop (l ++ [x]) = Some (x, l).
Proof. unfold list_pop. by rewrite last_snoc, removelast_last. Qed.

(** ** Strings and the counter format *)

Local Arguments String.append !_ _ / : simpl nomatch.

Lemma string_length_app (s t : string) :
  String.length (s +:+ t) = String.length s + String.length t.
Proof. induction s as [|a s IH]; simpl; [done|]. by rewrite IH. Qed.

Lemma string_app_assoc (s t u : string) : (s +:+ t) +:+ u = s +:+ (t +:+ u).
Proof. induction s as [|a s IH]; simpl; [done|]. by rewrite IH. Qed.

Lemma string_app_inv_tail (s1 s2 t : string) :
  s1 +:+ t = s2 +:+ t → s1 = s2.
Proof.
  revert s2. induction s1 as [|a s1 IH]; intros [|b s2] Heq; simpl in *.
  - done.
  - apply (f_equal String.length) in Heq. simpl in Heq.
    rewrite string_length_app in Heq. lia.
  - apply (f_equal String.length) in Heq. simpl in Heq.
    rewrite string_length_app in Heq. lia.
  - injection Heq as -> Heq. f_equal. by apply IH.
Qed.

Lemma string_compare_refl (s : string) : String.compare s s = Eq.
Proof.
  induction s as [|a s IH]; simpl; [done|].
  unfold Ascii.compare. by rewrite N.compare_refl.
Qed.

Lemma string_compare_app_l (p x y : string) :
  String.compare (p +:+ x) (p +:+ y) = String.compare x y.
Proof.
  induction p as [|a p IH]; simpl; [done|].
  unfold Ascii.compare. by rewrite N.compare_refl.
Qed.

Lemma length_pretty_N_go (x : N) (s : string) :
  String.length s ≤ String.length (pretty_N_go x s).
Proof.
  revert s. induction (N.lt_wf_0 x) as [x _ IH]; intros s.
  destruct (decide (x = 0)%N) as [->|Hx]; [by rewrite pretty_N_go_0|].
  rewrite pretty_N_go_step by lia.
  etrans; [|apply IH; apply N.div_lt; lia]. simpl. lia.
Qed.

Lemma N_small_cases (x : N) :
  (x < 10)%N →
  (x = 0 ∨ x = 1 ∨ x = 2 ∨ x = 3 ∨ x = 4 ∨ x = 5 ∨ x = 6 ∨ x = 7 ∨ x = 8
   ∨ x = 9)%N.
Proof. lia. Qed.

Lemma format_03d_small (n : nat) :
  n < 1000 → format_03d n = digits3 (N.of_nat n).
Proof.
  intros Hn. unfold format_03d, pretty, pretty_nat, pretty, pretty_N, digits3.
  set (x := N.of_nat n). assert (x < 1000)%N as Hx by lia. clearbody x.
  destruct (decide (x = 0)%N) as [->|Hx0]; [done|].
  rewrite pretty_N_go_step by lia.
  destruct (decide (x `div` 10 = 0)%N) as [H1|H1].
  { rewrite H1, pretty_N_go_0. simpl.
    apply N.div_small_iff in H1; [|done].
    rewrite (N.div_small x 100) by lia. done. }
  rewrite pretty_N_go_step by (by apply N.neq_0_lt_0).
  rewrite N.Div0.div_div. change (10 * 10)%N with 100%N.
  destruct (decide (x `div` 100 = 0)%N) as [H2|H2].
  { rewrite H2, pretty_N_go_0. done. }
  rewrite pretty_N_go_step by (by apply N.neq_0_lt_0).
  rewrite N.Div0.div_div. change (100 * 10)%N with 1000%N.
  rewrite (N.div_small x 1000) by lia.
  rewrite pretty_N_go_0. simpl.
  rewrite (N.mod_small (x `div` 100) 10); [done|].
  apply N.Div0.div_lt_upper_bound. lia.
Qed.

Lemma format_03d_large (n : nat) :
  1000 ≤ n → format_03d n = pretty n ∧ 4 ≤ String.length (pretty n).
Proof.
  intros Hn.
  assert (4 ≤ String.length (pretty n)) as Hlen.
  { unfold pretty, pretty_nat, pretty, pretty_N.
    set (x := N.of_nat n). assert (1000 ≤ x)%N as Hx by lia. clearbody x.
    destruct (decide (x = 0)%N); [lia|].
    rewrite pretty_N_go_step by lia.
    rewrite pretty_N_go_step by (apply N.div_str_pos; lia).
    rewrite N.Div0.div_div.
    rewrite pretty_N_go_step by (apply N.div_str_pos; lia).
    rewrite N.Div0.div_div.
    rewrite pretty_N_go_step by (apply N.div_str_pos; lia).
    etrans; [|apply length_pretty_N_go]. simpl. lia. }
  split; [|done]. unfold format_03d.
  by replace (3 - String.length (pretty n)) with 0 by lia.
Qed.

Lemma digits3_inj (x y : N) :
  (x < 1000)%N → (y < 1000)%N → digits3 x = digits3 y → x = y.
Proof.
  intros Hx Hy [= H1 H2 H3].
  apply pretty_N_char_inj in H1, H2, H3;
    try (apply N.mod_lt; lia); try (apply N.Div0.div_lt_upper_bound; lia).
  rewrite (N.div_mod x 10), (N.div_mod y 10) by done.
  rewrite (N.div_mod (x `div` 10) 10), (N.div_mod (y `div` 10) 10) by done.
  rewrite !N.Div0.div_div. change (10 * 10)%N with 100%N. lia.
Qed.

Lemma length_digits3 (x : N) : String.length (digits3 x) = 3.
Proof. done. Qed.

Lemma format_03d_inj (a b : nat) : format_03d a = format_03d b → a = b.
Proof.
  intros Heq.
  destruct (decide (a < 1000)) as [Ha|Ha], (decide (b < 1000)) as [Hb|Hb].
  - rewrite !format_03d_small in Heq by done.
    apply digits3_inj in Heq; lia.
  - rewrite format_03d_small in Heq by done.
    destruct (format_03d_large b) as [Hb' Hlen]; [lia|].
    rewrite Hb' in Heq. apply (f_equal String.length) in Heq.
    rewrite length_digits3 in Heq. lia.
  - rewrite (format_03d_small b) in Heq by done.
    destruct (format_03d_large a) as [Ha' Hlen]; [lia|].
    rewrite Ha' in Heq. apply (f_equal String.length) in Heq.
    rewrite length_digits3 in Heq. lia.
  - destruct (format_03d_large a) as [Ha' _]; [lia|].
    destruct (format_03d_large b) as [Hb' _]; [lia|].
    rewrite Ha', Hb' in Heq. by apply (inj pretty) in Heq.
Qed.

Lemma N_digits_eq (x : N) :
  (x = 100 * (x `div` 100) + 10 * ((x `div` 10) `mod` 10) + x `mod` 10)%N.
Proof.
  rewrite (N.div_mod x 10) at 1 by done.
  rewrite (N.div_mod (x `div` 10) 10) at 1 by done.
  rewrite N.Div0.div_div. change (10 * 10)%N with 100%N. lia.
Qed.

Lemma pretty_N_char_compare (a b : N) :
  (a < 10)%N → (b < 10)%N →
  Ascii.compare (pretty_N_char a) (pretty_N_char b) = (a ?= b)%N.
Proof.
  intros Ha%N_small_cases Hb%N_small_cases.
  repeat match goal with H : _ ∨ _ |- _ => destruct H end; subst; reflexivity.
Qed.

(** Among three-digit counters the order of the numbers is the order of
    the texts, whatever follows the digits. *)
Lemma digits3_le (x y : N) (suf : string) :
  (x ≤ y)%N → (y < 1000)%N →
  String.le (digits3 x +:+ suf) (digits3 y +:+ suf).
Proof.
  intros Hxy Hy. unfold String.le, String.leb, digits3. simpl.
  pose proof (N_digits_eq x) as Ex. pose proof (N_digits_eq y) as Ey.
  assert (x `div` 100 < 10 ∧ y `div` 100 < 10)%N as [??]
    by (split; apply N.Div0.div_lt_upper_bound; lia).
  assert ((x `div` 10) `mod` 10 < 10 ∧ (y `div` 10) `mod` 10 < 10)%N as [??]
    by (split; apply N.mod_lt; lia).
  assert (x `mod` 10 < 10 ∧ y `mod` 10 < 10)%N as [??]
    by (split; apply N.mod_lt; lia).
  rewrite !pretty_N_char_compare by done.
  set (x1 := (x `div` 100)%N) in *. set (x2 := ((x `div` 10) `mod` 10)%N) in *.
  set (x3 := (x `mod` 10)%N) in *. set (y1 := (y `div` 100)%N) in *.
  set (y2 := ((y `div` 10) `mod` 10)%N) in *. set (y3 := (y `mod` 10)%N) in *.
  clearbody x1 x2 x3 y1 y2 y3.
  destruct (N.compare_spec x1 y1); [|done|lia].
  destruct (N.compare_spec x2 y2); [|done|lia].
  destruct (N.compare_spec x3 y3); [|done|lia].
  by rewrite string_compare_refl.
Qed.

(** ** [ensure_unique_path] *)

(** A candidate is a fixed text around the formatted counter. *)
Lemma candidate_shape (d : Path) :
  ∃ pre, ∀ c, candidate d c = pre +:+ format_03d c +:+ suffix d.
Proof.
  unfold candidate, joinpath. set (P := parent d). set (st := stem d).
  assert (∀ x, bool_decide (st +:+ "__" +:+ x = ".") = false) as Hdot.
  { intros x. apply bool_decide_eq_false_2. intros H.
    apply (f_equal String.length) in H.
    rewrite !string_length_app in H. simpl in H. lia. }
  assert (∀ x, is_absolute (st +:+ "__" +:+ x) = is_absolute (st +:+ "__"))
    as Habs by (intros x; by destruct st).
  destruct (is_absolute (st +:+ "__")) eqn:Ha.
  { exists (st +:+ "__"). intros c. by rewrite Habs, string_app_assoc. }
  destruct (bool_decide (P = ".")).
  { exists (st +:+ "__"). intros c. by rewrite Habs, Hdot, string_app_assoc. }
  destruct (bool_decide (P = "/")).
  { exists ("/" +:+ st +:+ "__"). intros c.
    rewrite Habs, Hdot. simpl. by rewrite string_app_assoc. }
  exists (P +:+ "/" +:+ st +:+ "__"). intros c.
  rewrite Habs, Hdot. by rewrite !string_app_assoc.
Qed.

Lemma candidate_inj (d : Path) (a b : nat) :
  candidate d a = candidate d b → a = b.
Proof.
  destruct (candidate_shape d) as [pre Hpre]. rewrite !Hpre. intros H.
  apply (inj (String.app pre)) in H. apply string_app_inv_tail in H.
  by apply format_03d_inj.
Qed.

Lemma candidate_le (d : Path) (a b : nat) :
  a ≤ b → b < 1000 → String.le (candidate d a) (candidate d b).
Proof.
  intros Hab Hb. destruct (candidate_shape d) as [pre Hpre]. rewrite !Hpre.
  unfold String.le, String.leb. rewrite string_compare_app_l.
  rewrite !format_03d_small by lia.
  apply (digits3_le (N.of_nat a) (N.of_nat b) (suffix d)); lia.
Qed.

Lemma unique_loop_spec fuel fs d c t :
  unique_loop fuel fs d c = Some t →
  ∃ r, c ≤ r ∧ t = candidate d r ∧ path_exists fs t = false
       ∧ ∀ k, c ≤ k < r → path_exists fs (candidate d k) = true.
Proof.
  revert c. induction fuel as [|fuel IH]; intros c; simpl; [done|].
  destruct (path_exists fs (candidate d c)) eqn:Hc; simpl.
  - intros (r & Hr & -> & Hfree & Hused)%IH.
    exists r. repeat split; [lia|done|]. intros k Hk.
    destruct (decide (k = c)) as [->|]; [done|]. apply Hused. lia.
  - intros [= <-]. exists c. repeat split; [lia|done|]. intros k Hk. lia.
Qed.

Lemma unique_loop_complete fuel fs d c r :
  c ≤ r < c + fuel → path_exists fs (candidate d r) = false →
  is_Some (unique_loop fuel fs d c).
Proof.
  revert c. induction fuel as [|fuel IH]; intros c Hr Hfree; simpl; [lia|].
  destruct (path_exists fs (candidate d c)) eqn:Hc; simpl; [|by eexists].
  apply IH; [|done]. destruct (decide (r = c)) as [->|]; [congruence|lia].
Qed.

Lemma path_exists_elem_of fs p :
  path_exists fs p = true → p ∈ dom (nodes fs) ∪ ({[ "."; "/" ]} : gset string).
Proof.
  unfold path_exists, fs_lookup, is_root. intros H.
  destruct (bool_decide (p = ".")) eqn:E1; [apply bool_decide_eq_true in E1; set_solver|].
  destruct (bool_decide (p = "/")) eqn:E2; [apply bool_decide_eq_true in E2; set_solver|].
  simpl in H. apply elem_of_union_l, elem_of_dom.
  destruct (nodes fs !! p); [by eexists|done].
Qed.

(** The filesystem is finite and the candidates are pairwise distinct, so
    one of the first [size + 3] is free. *)
Lemma free_candidate fs d :
  ∃ r, 1 ≤ r < 1 + (size (nodes fs) + 3)
       ∧ path_exists fs (candidate d r) = false.
Proof.
  set (n := size (nodes fs) + 3).
  destruct (decide (Exists (λ r, path_exists fs (candidate d r) = false)
                      (seq 1 n))) as [Hex|Hall].
  { apply Exists_exists in Hex as (r & Hin & Hfree).
    apply elem_of_seq in Hin. exists r. split; [lia|done]. }
  exfalso. apply not_Exists_Forall in Hall; [|intros ?; apply _].
  rewrite Forall_forall in Hall.
  set (l := candidate d <$> seq 1 n).
  assert (NoDup l) as Hnd.
  { apply NoDup_fmap_2; [|apply NoDup_seq]. intros a b. apply candidate_inj. }
  assert (list_to_set l ⊆ dom (nodes fs) ∪ ({[ "."; "/" ]} : gset string))
    as Hsub.
  { intros p [r [-> Hin]]%elem_of_list_to_set%list_elem_of_fmap.
    apply path_exists_elem_of. specialize (Hall r Hin). simpl in Hall.
    by destruct (path_exists fs (candidate d r)). }
  apply subseteq_size in Hsub.
  rewrite size_list_to_set in Hsub by done.
  unfold l in Hsub. rewrite length_fmap, length_seq in Hsub.
  rewrite size_union_alt, size_dom in Hsub.
  assert (size (({[ "."; "/" ]} : gset string) ∖ dom (nodes fs)) ≤ 2).
  { etrans; [apply subseteq_size, subseteq_difference_l; reflexivity|].
    rewrite size_union by set_solver. by rewrite !size_singleton. }
  unfold n in Hsub. lia.
Qed.

(** The loop of [ensure_unique_path] always ends: the function returns. *)
Lemma ensure_unique_path_total fs d : is_Some (ensure_unique_path fs d).
Proof.
  unfold ensure_unique_path, ensure_unique_path_fuel.
  destruct (path_exists fs d); simpl; [|by eexists].
  destruct (free_candidate fs d) as (r & Hr & Hfree).
  by apply unique_loop_complete with r.
Qed.

Lemma ensure_unique_path_free fs d t :
  ensure_unique_path fs d = Some t → path_exists fs t = false.
Proof.
  unfold ensure_unique_path, ensure_unique_path_fuel.
  destruct (path_exists fs d) eqn:Hd; simpl; [|congruence].
  by intros (r & _ & _ & Hfree & _)%unique_loop_spec.
Qed.

(** *** Collision-safe naming *)

(** C3 (as stated, refuted): with [d/a.mp4] and [d/a__001.mp4] to
    [d/a__100.mp4] taken, [ensure_unique_path] returns [d/a__101.mp4],
    although the unused candidate of counter 1000, [d/a__1000.mp4], comes
    before it in lexicographic order. *)
Lemma ensure_unique_path_not_lexicographically_first :
  ensure_unique_path Collisions.fs101 "d/a.mp4" = Some "d/a__101.mp4"
  ∧ candidate "d/a.mp4" 1000 = "d/a__1000.mp4"
  ∧ path_exists Collisions.fs101 (candidate "d/a.mp4" 1000) = false
  ∧ ¬ String.le "d/a__101.mp4" (candidate "d/a.mp4" 1000).
Proof. vm_compute. repeat split; try reflexivity. intros []. Qed.

(** C3 (amended): [ensure_unique_path] always returns; the path it returns
    does not exist; it is the desired path when that is free, and otherwise
    the candidate [{stem}__{counter:03d}{ext}] of the least counter, from 1,
    that is unused, which is also the lexicographically first among the
    unused candidates of counters 1 to 999. *)
Theorem ensure_unique_path_first_unused (fs : FS) (d : Path) :
  ∃ t, ensure_unique_path fs d = Some t
       ∧ path_exists fs t = false
       ∧ (path_exists fs d = false → t = d)
       ∧ (path_exists fs d = true →
          ∃ r, 1 ≤ r ∧ t = candidate d r
               ∧ (∀ k, 1 ≤ k < r → path_exists fs (candidate d k) = true)
               ∧ (∀ k, 1 ≤ k < 1000 →
                       path_exists fs (candidate d k) = false →
                       String.le t (candidate d k))).
Proof.
  destruct (ensure_unique_path_total fs d) as [t Ht]. exists t.
  split; [done|]. split; [by eapply ensure_unique_path_free|].
  unfold ensure_unique_path, ensure_unique_path_fuel in Ht.
  destruct (path_exists fs d) eqn:Hd; simpl in Ht.
  - split; [done|]. intros _.
    apply unique_loop_spec in Ht as (r & Hr & -> & Hfree & Hused).
    exists r. repeat split; [done..|]. intros k Hk Hkfree.
    assert (r ≤ k) as Hrk.
    { destruct (decide (r ≤ k)) as [|Hlt]; [done|].
      rewrite Hused in Hkfree by lia. done. }
    apply candidate_le; lia.
  - split; [congruence|done].
Qed.

(** ** Moving and copying *)

Lemma fs_lookup_file_not_root fs p c :
  fs_lookup fs p = Some (File c) → is_root p = false ∧ nodes fs !! p = Some (File c).
Proof. unfold fs_lookup. by destruct (is_root p). Qed.

Lemma path_exists_false_not_dir fs p : path_exists fs p = false → is_dir fs p = false.
Proof. unfold path_exists, is_dir. by destruct (fs_lookup fs p) as [[]|]. Qed.

Lemma real_dst_free fs src dst : path_exists fs dst = false → real_dst fs src dst = dst.
Proof. intros H. unfold real_dst. by rewrite path_exists_false_not_dir. Qed.

(** What a successful move onto a free path does to the map. *)
Lemma shutil_move_free fs src dst fs' :
  path_exists fs dst = false → shutil_move fs src dst = Ok fs' →
  ∃ c, nodes fs !! src = Some (File c) ∧ is_root src = false ∧ src ≠ dst
       ∧ fs' = fs_set (fs_remove fs src) dst (File c).
Proof.
  intros Hfree. unfold shutil_move. rewrite real_dst_free by done.
  destruct (fs_lookup fs src) as [[c|]|] eqn:Hsrc; [|done..].
  apply fs_lookup_file_not_root in Hsrc as Hsrc'. destruct Hsrc' as [Hroot Hn].
  rewrite path_exists_false_not_dir by done. simpl.
  repeat case_match; try done. intros [= <-]. exists c. repeat split; [done..|].
  intros ->. unfold path_exists in Hfree. by rewrite Hsrc in Hfree.
Qed.

Lemma shutil_move_src_gone fs src dst fs' :
  path_exists fs dst = false → shutil_move fs src dst = Ok fs' →
  path_exists fs' src = false.
Proof.
  intros Hfree (c & Hc & Hroot & Hne & ->)%shutil_move_free; [|done].
  unfold path_exists, fs_lookup. rewrite Hroot. simpl.
  by rewrite lookup_insert_ne, lookup_delete_eq.
Qed.

Lemma shutil_copy2_src_kept fs src dst fs' :
  shutil_copy2 fs src dst = Ok fs' → is_file fs' src = true.
Proof.
  unfold shutil_copy2.
  destruct (fs_lookup fs src) as [[c|]|] eqn:Hsrc; [|done..].
  apply fs_lookup_file_not_root in Hsrc as [Hroot Hn].
  case_bool_decide as Hsame; [done|].
  repeat case_match; try done. intros [= <-].
  unfold is_file, fs_lookup. rewrite Hroot. simpl.
  by rewrite lookup_insert_ne, Hn.
Qed.

(** The ways [label_current] can end for a current item, by what the
    filesystem answers. *)
Lemma label_current_unfold now label w cur :
  current_path w = Some cur →
  label_current now label w =
    match mkdir (fs w) (label_dest label) with
    | Raise e => Raised e (release_media w)
    | Ok fs1 =>
        let w2 := set_fs fs1 (release_media w) in
        match ensure_unique_path fs1 (joinpath (label_dest label) (name cur)) with
        | None => Raised NotModelled w2
        | Some target =>
            match transfer (move_mode w) fs1 cur target with
            | Raise PermissionError =>
                Done (set_player (Some cur) true (warn (move_failed cur) w2))
            | Raise e => Raised e w2
            | Ok fs2 =>
                Done (load_next
                        (log_action now (label_key label) (label_name label)
                           cur target (mode_str (move_mode w))
                           (set_undo_stack (undo_stack w ++ [(cur, target)])
                              (set_fs fs2 w2))))
            end
        end
    end.
Proof. intros Hcur. unfold label_current. by rewrite Hcur. Qed.

(** C6: after a classification that succeeded (it pushed its pair onto the
    undo stack), the original is still a regular file at its source path in
    copy mode, and nothing exists at the source path in move mode. *)
Theorem mode_fidelity now label w w' cur :
  current_path w = Some cur →
  label_current now label w = Done w' →
  undo_stack w' ≠ undo_stack w →
  match move_mode w with
  | CopyMode => is_file (fs w') cur = true
  | MoveMode => path_exists (fs w') cur = false
  end.
Proof.
  intros Hcur Hrun Hpush. rewrite (label_current_unfold _ _ _ _ Hcur) in Hrun.
  destruct (mkdir (fs w) (label_dest label)) as [fs1|]; [|done].
  destruct (ensure_unique_path fs1 _) as [target|] eqn:Htarget; [|done].
  apply ensure_unique_path_free in Htarget.
  destruct (transfer (move_mode w) fs1 cur target) as [fs2|e] eqn:Hmv.
  - injection Hrun as <-. rewrite fs_load_next. simpl.
    destruct (move_mode w); simpl in Hmv.
    + by eapply shutil_move_src_gone.
    + by eapply shutil_copy2_src_kept.
  - destruct e; try done. injection Hrun as <-. by destruct Hpush.
Qed.

Lemma mode_fidelity_move_witness :
  path_exists (fs (result_world (label_current "t1" Samples.keep Samples.w0)))
    "src/a.mp4" = false.
Proof.
  apply (mode_fidelity "t1" Samples.keep Samples.w0 _ "src/a.mp4");
    [reflexivity | vm_compute; reflexivity | vm_compute; discriminate].
Defined.

(** C4: when the move or copy of a classification raises [PermissionError],
    the slot returns normally after a warning with the log, the queue and the
    undo stack as they were and the same item current, loaded and playing;
    any other exception of the move or copy escapes the slot. *)
Theorem permission_error_leaves_state now label w cur fs1 target e :
  current_path w = Some cur →
  mkdir (fs w) (label_dest label) = Ok fs1 →
  ensure_unique_path fs1 (joinpath (label_dest label) (name cur)) = Some target →
  transfer (move_mode w) fs1 cur target = Raise e →
  (e = PermissionError →
   ∃ w', label_current now label w = Done w'
         ∧ log w' = log w ∧ queue w' = queue w
         ∧ undo_stack w' = undo_stack w
         ∧ current_path w' = Some cur
         ∧ player_source w' = Some cur ∧ playing w' = true
         ∧ warnings w' = move_failed cur :: warnings w)
  ∧ (e ≠ PermissionError →
     ∃ w', label_current now label w = Raised e w'
           ∧ log w' = log w ∧ queue w' = queue w
           ∧ undo_stack w' = undo_stack w).
Proof.
  intros Hcur Hmk Htarget Hmv.
  rewrite (label_current_unfold _ _ _ _ Hcur), Hmk. simpl.
  rewrite Htarget, Hmv. split.
  - intros ->. eexists. split; [done|]. by simpl.
  - intros Hne. destruct e; try done; eexists; (split; [done|]); by simpl.
Qed.

Lemma permission_error_leaves_state_witness :
  ∃ w', label_current "t1" Samples.keep Samples.w_locked = Done w'
        ∧ log w' = log Samples.w_locked ∧ queue w' = queue Samples.w_locked
        ∧ undo_stack w' = undo_stack Samples.w_locked
        ∧ current_path w' = Some "src/a.mp4"
        ∧ player_source w' = Some "src/a.mp4" ∧ playing w' = true
        ∧ warnings w' = move_failed "src/a.mp4" :: warnings Samples.w_locked.
Proof.
  refine (proj1 (permission_error_leaves_state "t1" Samples.keep
                   Samples.w_locked "src/a.mp4" _ "sorted/keep/a.mp4"
                   PermissionError _ _ _ _) eq_refl);
    vm_compute; reflexivity.
Defined.

(** An exception of [mkdir], a [PermissionError] included, is outside the
    [try] and escapes. *)
Lemma label_current_mkdir_error now label w cur e :
  current_path w = Some cur →
  mkdir (fs w) (label_dest label) = Raise e →
  label_current now label w = Raised e (release_media w).
Proof. intros Hcur Hmk. by rewrite (label_current_unfold _ _ _ _ Hcur), Hmk. Qed.

(** ** Actions without their precondition *)

(** C8 (as stated, refuted): with no current item, [skip_current] and
    [label_current] return at once and set no status message. *)
Lemma no_current_item_sets_no_status :
  current_path Samples.w_idle = None
  ∧ skip_current "t1" Samples.w_idle = Done Samples.w_idle
  ∧ label_current "t1" Samples.keep Samples.w_idle = Done Samples.w_idle
  ∧ ¬ (∃ msg w', skip_current "t1" Samples.w_idle = Done w'
                 ∧ status_log w' = msg :: status_log Samples.w_idle)
  ∧ ¬ (∃ msg w', label_current "t1" Samples.keep Samples.w_idle = Done w'
                 ∧ status_log w' = msg :: status_log Samples.w_idle).
Proof.
  repeat split; try reflexivity.
  - intros (msg & w' & [= <-] & Hst). vm_compute in Hst. discriminate.
  - intros (msg & w' & [= <-] & Hst). vm_compute in Hst. discriminate.
Qed.

(** C8 (amended): none of the three raises; [undo_last] with an empty undo
    stack changes nothing but the status label, which it sets to "Nothing
    to undo."; [skip_current] and [label_current] with no current item
    change nothing at all, the status label included. *)
Theorem missing_precondition_is_ignored (now : string) (label : Label) (w : World) :
  (undo_stack w = [] →
   undo_last w = Done (set_status "Nothing to undo." w))
  ∧ (current_path w = None →
     skip_current now w = Done w ∧ label_current now label w = Done w).
Proof.
  split.
  - intros Hst. unfold undo_last. by rewrite Hst.
  - intros Hcur. unfold skip_current, label_current. by rewrite Hcur.
Qed.

Lemma missing_precondition_is_ignored_witness :
  undo_last Samples.w_idle = Done (set_status "Nothing to undo." Samples.w_idle)
  ∧ skip_current "t1" Samples.w_idle = Done Samples.w_idle
  ∧ label_current "t1" Samples.keep Samples.w_idle = Done Samples.w_idle.
Proof.
  destruct (missing_precondition_is_ignored "t1" Samples.keep Samples.w_idle)
    as [Hundo Hcur].
  split; [apply Hundo; reflexivity | apply Hcur; reflexivity].
Defined.

Lemma set_status_frame msg w :
  let w' := set_status msg w in
  fs w' = fs w ∧ log w' = log w ∧ queue w' = queue w
  ∧ current_path w' = current_path w ∧ undo_stack w' = undo_stack w
  ∧ status_log w' = msg :: status_log w.
Proof. done. Qed.

(** ** The speed selector *)

Lemma set_speed_same w :
  set_speed (speed_index w) (playback_rate w) w = w.
Proof. by destruct w. Qed.

Lemma speed_ok_init sd m fs0 l : speed_ok (init sd m fs0 l).
Proof.
  unfold speed_ok, init, load_next, ensure_log_header. simpl.
  by repeat case_match.
Qed.

(** C9: a press of the speed button moves the index to the next position
    of [speed_steps], wrapping from the last to the first, and sets the
    player to the rate found there; the selected rate is then an element of
    the list, and from a state whose rate is the selected one eight presses
    lead back to the same state. *)
Theorem cycle_speed_cyclic (w : World) :
  (∃ rate,
     cycle_speed w = Done (set_speed ((speed_index w + 1) mod 8) rate w)
     ∧ speed_steps !! ((speed_index w + 1) mod 8) = Some rate
     ∧ rate ∈ speed_steps
     ∧ speed_ok (set_speed ((speed_index w + 1) mod 8) rate w))
  ∧ (speed_index w = 7 → (speed_index w + 1) mod 8 = 0)
  ∧ (speed_index w < 7 → (speed_index w + 1) mod 8 = speed_index w + 1)
  ∧ speed_steps =
      [1 # 2; 1 # 1; 3 # 2; 2 # 1; 4 # 1; 6 # 1; 8 # 1; 10 # 1]%Q
  ∧ (speed_ok w → cycle_speed_n 8 w = Done w).
Proof.
  split; [|split; [|split; [|split]]].
  - unfold cycle_speed. change (length speed_steps) with 8.
    assert ((speed_index w + 1) mod 8 < 8) as Hlt by (apply Nat.mod_upper_bound; lia).
    destruct (speed_steps !! ((speed_index w + 1) mod 8)) as [rate|] eqn:Hr.
    + exists rate. repeat split; [|done]. by eapply list_elem_of_lookup_2.
    + apply lookup_ge_None in Hr. change (length speed_steps) with 8 in Hr. lia.
  - by intros ->.
  - intros Hlt. apply Nat.mod_small. lia.
  - done.
  - unfold speed_ok. intros Hok.
    assert (speed_index w < 8) as Hlt
      by (apply lookup_lt_Some in Hok; exact Hok).
    rewrite <- (set_speed_same w) at 2. destruct w as [? ? ? ? ? ? ? i ? ? r ? ?].
    simpl in *.
    do 8 (destruct i as [|i]; [by injection Hok as <-|]). lia.
Qed.

Lemma cycle_speed_cyclic_witness :
  cycle_speed_n 8 Samples.w0 = Done Samples.w0.
Proof.
  apply (proj2 (proj2 (proj2 (proj2 (cycle_speed_cyclic Samples.w0))))).
  vm_compute. reflexivity.
Defined.

(** ** The header row of the log *)






(** ** The sorted root *)

(** Without [--sorted-root] the root is the directory [sorted] next to the
    source directory. *)
Lemma main_sorted_root_default (source_dir : Path) :
  main_sorted_root None source_dir = joinpath (parent source_dir) "sorted".
Proof. done. Qed.

Lemma main_sorted_root_explicit (r source_dir : Path) :
  main_sorted_root (Some r) source_dir = r.
Proof. done. Qed.

(** Relative destinations go under the sorted root, absolute ones are kept. *)
Lemma load_labels_dest (data : list ConfigItem) (sorted_root : Path) :
  Forall2 (λ item l,
             label_key l = item_key item ∧ label_name l = item_name item
             ∧ (is_absolute (item_dest item) = true → label_dest l = item_dest item)
             ∧ (is_absolute (item_dest item) = false →
                label_dest l = joinpath sorted_root (item_dest item)))
          data (load_labels data sorted_root).
Proof.
  unfold load_labels. induction data as [|item data IH]; constructor; [|done].
  simpl. by destruct (is_absolute (item_dest item)).
Qed.

(** C7 (the code at the failing input): for the source directory
    [data/videos] and no [--sorted-root], the relative destination [keep]
    is resolved to [data/sorted/keep]; against the parent of the source
    directory it would be [data/keep]. *)
Theorem default_sorted_root_is_sorted_subdirectory :
  main_sorted_root None "data/videos" = "data/sorted"
  ∧ parent "data/videos" = "data"
  ∧ load_labels [mkItem "1" "keep" "keep"] (main_sorted_root None "data/videos")
    = [mkLabel "1" "keep" "data/sorted/keep"]
  ∧ load_labels [mkItem "1" "keep" "keep"] (parent "data/videos")
    = [mkLabel "1" "keep" "data/keep"]
  ∧ load_labels [mkItem "2" "bin" "/srv/bin"] (main_sorted_root None "data/videos")
    = [mkLabel "2" "bin" "/srv/bin"].
Proof. by vm_compute. Qed.

(** ** Reading the log *)

Lemma elem_of_read_rows fieldnames rows seen v :
  v ∈ read_rows fieldnames rows seen ↔
  v ∈ seen
  ∨ ∃ row, row ∈ rows ∧ row ≠ [] ∧ v ≠ ""
           ∧ row_get (dict_of_row fieldnames row) "original_path" = Some v.
Proof.
  revert seen. induction rows as [|row rows IH]; intros seen; simpl.
  { split; [by left|]. intros [?|(row & Hin & _)]; [done|].
    by apply not_elem_of_nil in Hin. }
  assert (∀ Q : list string → Prop,
            (∃ r, r ∈ row :: rows ∧ Q r) ↔ Q row ∨ ∃ r, r ∈ rows ∧ Q r) as Hex.
  { intros Q. split.
    - intros (r & [->|Hin]%elem_of_cons & HQ); [by left|right; eauto].
    - intros [HQ|(r & Hin & HQ)]; [exists row|exists r];
        (split; [|done]); [by left|by right]. }
  rewrite Hex. clear Hex.
  case_bool_decide as Hnil.
  { rewrite IH. naive_solver. }
  destruct (row_get _ _) as [v'|] eqn:Hget.
  - case_bool_decide as Hempty; rewrite IH; [naive_solver|].
    rewrite elem_of_union, elem_of_singleton. naive_solver.
  - rewrite IH. naive_solver.
Qed.



(** ** Building the queue *)

Lemma build_queue_loop_filter fs logged todo paths :
  build_queue_loop fs logged todo paths = paths ++ filter (queued fs logged) todo.
Proof.
  revert paths. induction todo as [|p todo IH]; intros paths; simpl.
  { by rewrite app_nil_r. }
  destruct (is_file fs p) eqn:Hfile; simpl.
  - case_bool_decide as Hext; simpl.
    + case_bool_decide as Hlog; rewrite IH.
      * rewrite filter_cons_False; [done|]. unfold queued. tauto.
      * rewrite filter_cons_True by done. by rewrite <- app_assoc.
    + rewrite IH, filter_cons_False; [done|]. unfold queued. tauto.
  - rewrite IH, filter_cons_False; [done|]. unfold queued. intros [? _]. congruence.
Qed.




Lemma build_queue_filter sd fs log :
  build_queue sd fs log
  = filter (queued fs (read_logged_paths log)) (sorted (iterdir fs sd)).
Proof. unfold build_queue. by rewrite build_queue_loop_filter. Qed.



(** ** Skipping *)




(** ** Undo *)



Lemma mkdir_parents_dir fuel fs d :
  is_dir fs d = true → mkdir_parents fuel fs d = Ok fs.
Proof.
  unfold is_dir. intros H. destruct fuel; simpl;
    by destruct (fs_lookup fs d) as [[]|].
Qed.

Lemma fs_set_remove_restore fs src dst c :
  nodes fs !! src = Some (File c) → nodes fs !! dst = None →
  fs_set (fs_remove (fs_set (fs_remove fs src) dst (File c)) dst) src (File c)
  = fs.
Proof.
  intros Hsrc Hdst. destruct fs as [m l]. unfold fs_set, fs_remove. simpl in *.
  f_equal. rewrite delete_insert_eq.
  rewrite (delete_id (delete src m)) by (by rewrite lookup_delete_ne by congruence).
  rewrite insert_delete_eq. by apply insert_id.
Qed.

Lemma fs_remove_last_log_entry w : fs (remove_last_log_entry w) = fs w.
Proof. unfold remove_last_log_entry. by repeat case_match. Qed.

(** The path of [undo_last] that moves the file back. *)
Lemma undo_last_moves_back w original dest rest fs1 fs2 :
  undo_stack w = rest ++ [(original, dest)] →
  path_exists (fs w) dest = true →
  mkdir (fs w) (parent dest) = Ok fs1 →
  shutil_move fs1 dest original = Ok fs2 →
  ∃ w2, undo_last w = Done w2 ∧ fs w2 = fs2.
Proof.
  intros Hst Hex Hmk Hmv. unfold undo_last.
  rewrite Hst, list_pop_snoc. cbv zeta.
  change (fs (set_undo_stack rest (release_media w))) with (fs w).
  rewrite Hex, Hmk, Hmv. eexists. split; [done|].
  change (fs ?x) with (fs (remove_last_log_entry
    (set_fs fs2 (set_undo_stack rest (release_media w))))).
  by rewrite fs_remove_last_log_entry.
Qed.

(** X14: in move mode, when the directory of the current file exists,
    the undo that follows a classification does return, and
    the filesystem it leaves is the one the classification had after making
    the destination directory: the file is back with its content, nothing is
    at the destination, the new directories stay. *)
Lemma undo_after_classify_filesystem now label w w1 cur fs1 :
  move_mode w = MoveMode →
  current_path w = Some cur →
  mkdir (fs w) (label_dest label) = Ok fs1 →
  is_dir fs1 (parent cur) = true →
  label_current now label w = Done w1 →
  undo_stack w1 ≠ undo_stack w →
  ∃ w2, undo_last w1 = Done w2 ∧ fs w2 = fs1.
Proof.
  intros Hmode Hcur Hmk Hpar Hrun Hpush.
  rewrite (label_current_unfold _ _ _ _ Hcur), Hmk, Hmode in Hrun.
  destruct (ensure_unique_path fs1 _) as [target|] eqn:Htarget; [|done].
  apply ensure_unique_path_free in Htarget as Hfree.
  cbv zeta in Hrun. unfold transfer in Hrun.
  destruct (shutil_move fs1 cur target) as [fs2|e] eqn:Hmv.
  2:{ destruct e; try done. injection Hrun as <-. by destruct Hpush. }
  clear Hpush.
  assert (fs w1 = fs2 ∧ undo_stack w1 = undo_stack w ++ [(cur, target)])
    as [Hfs1 Hst1].
  { injection Hrun as <-. by rewrite fs_load_next, undo_stack_load_next. }
  clear Hrun.
  pose proof Hmv as Hmv'.
  apply shutil_move_free in Hmv' as (c & Hc & Hroot & Hne & Hfs2); [|done].
  (* what the forward move checked *)
  unfold shutil_move in Hmv. rewrite real_dst_free in Hmv by done.
  assert (fs_lookup fs1 cur = Some (File c)) as Hlc
    by (unfold fs_lookup; by rewrite Hroot).
  rewrite Hlc, (path_exists_false_not_dir _ _ Hfree) in Hmv.
  rewrite andb_false_l in Hmv.
  destruct (bool_decide (cur ∈ locked fs1)) eqn:Hl1; [done|].
  destruct (bool_decide (target ∈ locked fs1)) eqn:Hl2; [done|].
  rewrite orb_false_l in Hmv.
  destruct (is_dir fs1 (parent target)) eqn:Hpt; [|done]. clear Hmv.
  assert (is_root target = false ∧ nodes fs1 !! target = None) as [Hrt Hnt].
  { unfold path_exists, fs_lookup in Hfree.
    destruct (is_root target); [done|]. by destruct (nodes fs1 !! target). }
  assert (∀ p, is_dir fs1 p = true → is_dir fs2 p = true) as Hdirs.
  { intros p Hp. unfold is_dir, fs_lookup in *. destruct (is_root p); [done|].
    rewrite Hfs2. cbn [fs_set fs_remove nodes].
    rewrite lookup_insert_ne by (intros <-; by rewrite Hnt in Hp).
    rewrite lookup_delete_ne by (intros <-; by rewrite Hc in Hp). done. }
  assert (fs_lookup fs2 target = Some (File c)) as Hlt.
  { unfold fs_lookup. rewrite Hrt, Hfs2. cbn [fs_set fs_remove nodes].
    by rewrite lookup_insert_eq. }
  assert (path_exists fs2 cur = false) as Hgone.
  { unfold path_exists, fs_lookup. rewrite Hroot, Hfs2.
    cbn [fs_set fs_remove nodes].
    by rewrite lookup_insert_ne, lookup_delete_eq. }
  apply (undo_last_moves_back w1 cur target (undo_stack w) fs2 fs1);
    [done|..]; rewrite ?Hfs1.
  - unfold path_exists. by rewrite Hlt.
  - unfold mkdir. by rewrite mkdir_parents_dir by (by apply Hdirs).
  - unfold shutil_move. rewrite Hlt, real_dst_free by done.
    rewrite (path_exists_false_not_dir _ _ Hgone), andb_false_l.
    assert (locked fs2 = locked fs1) as -> by (by rewrite Hfs2).
    rewrite Hl1, Hl2, orb_false_l, (Hdirs _ Hpar). cbn [negb].
    f_equal. rewrite Hfs2. by apply fs_set_remove_restore.
Qed.

(** C1 (the code at the failing input): [src/a.mp4] is current and
    [src/b.mp4] is queued.  Classifying in move mode and undoing at once
    brings the file, the log and the undo stack back, and leaves the
    directories made for the destination; but [current_path] stays on
    [src/b.mp4] while the player shows [src/a.mp4], and the queue is
    [src/a.mp4] alone.  The next press of the label key therefore moves
    [src/b.mp4], not the file on screen. *)
Theorem classify_then_undo_loses_current_item :
  let w := Samples.w0 in
  let w1 := result_world (label_current "t1" Samples.keep w) in
  let w2 := result_world (undo_last w1) in
  let w3 := result_world (label_current "t2" Samples.keep w2) in
  (current_path w = Some "src/a.mp4" ∧ queue w = ["src/b.mp4"])
  ∧ (label_current "t1" Samples.keep w = Done w1
     ∧ nodes (fs w1) !! "src/a.mp4" = None
     ∧ nodes (fs w1) !! "sorted/keep/a.mp4" = Some (File "AAAA")
     ∧ undo_stack w1 = [("src/a.mp4", "sorted/keep/a.mp4")])
  ∧ (undo_last w1 = Done w2
     ∧ nodes (fs w2) !! "src/a.mp4" = Some (File "AAAA")
     ∧ nodes (fs w2) !! "sorted/keep/a.mp4" = None
     ∧ nodes (fs w2) !! "sorted/keep" = Some Dir
     ∧ nodes (fs w) !! "sorted/keep" = None
     ∧ log w2 = log w
     ∧ undo_stack w2 = undo_stack w)
  ∧ (current_path w2 = Some "src/b.mp4"
     ∧ queue w2 = ["src/a.mp4"]
     ∧ player_source w2 = Some "src/a.mp4")
  ∧ (label_current "t2" Samples.keep w2 = Done w3
     ∧ nodes (fs w3) !! "src/b.mp4" = None
     ∧ nodes (fs w3) !! "sorted/keep/b.mp4" = Some (File "BBBB")
     ∧ nodes (fs w3) !! "src/a.mp4" = Some (File "AAAA")).
Proof. intros w w1 w2 w3. split_and!; vm_compute; reflexivity. Qed.

(** ** Further evaluations on the samples *)

Example copy_keeps_the_original :
  let w1 := result_world (label_current "t1" Samples.keep Samples.w0_copy) in
  is_file (fs w1) "src/a.mp4" = true
  ∧ is_file (fs w1) "sorted/keep/a.mp4" = true
  ∧ undo_stack w1 = [("src/a.mp4", "sorted/keep/a.mp4")].
Proof. intros w1. split_and!; vm_compute; reflexivity. Qed.

Example start_up_queue :
  build_queue "src" Samples.fs0 None = ["src/a.mp4"; "src/b.mp4"]
  ∧ build_queue "src" Samples.fs0
      (Some [log_header; ["t0"; "1"; "keep"; "src/a.mp4"; "sorted/keep/a.mp4"; "move"]])
    = ["src/b.mp4"].
Proof. split; vm_compute; reflexivity. Qed.

Example collision_names :
  ensure_unique_path Samples.fs0 "src/a.mp4" = Some "src/a__001.mp4"
  ∧ ensure_unique_path Samples.fs0 "src/c.mp4" = Some "src/c.mp4"
  ∧ ensure_unique_path
      (fs_set Samples.fs0 "src/a__001.mp4" Dir) "src/a.mp4"
    = Some "src/a__002.mp4".
Proof. split_and!; vm_compute; reflexivity. Qed.

(** [undo_last] drops the last row of the log whatever it records: after
    a classification of [src/a.mp4] and a skip of [src/b.mp4], the undo moves
    [src/a.mp4] back and drops the row of the skip.  The next run then leaves
    out [src/a.mp4], which is in the source directory again, and offers
    [src/b.mp4]. *)
Example undo_after_skip_drops_the_skip_row :
  let w1 := result_world (label_current "t1" Samples.keep Samples.w0) in
  let w2 := result_world (skip_current "t2" w1) in
  let w3 := result_world (undo_last w2) in
  log w2 = Some [log_header;
                 ["t1"; "1"; "keep"; "src/a.mp4"; "sorted/keep/a.mp4"; "move"];
                 ["t2"; ""; "skip"; "src/b.mp4"; "src/b.mp4"; "skip"]]
  ∧ undo_last w2 = Done w3
  ∧ log w3 = Some [log_header;
                   ["t1"; "1"; "keep"; "src/a.mp4"; "sorted/keep/a.mp4"; "move"]]
  ∧ is_file (fs w3) "src/a.mp4" = true
  ∧ build_queue "src" (fs w3) (log w3) = ["src/b.mp4"].
Proof. intros w1 w2 w3. split_and!; vm_compute; reflexivity. Qed.

(** * Further properties of the code *)

(** ** The time display *)

Lemma string_app_inv_length (s1 s2 t1 t2 : string) :
  s1 +:+ t1 = s2 +:+ t2 → String.length t1 = String.length t2 →
  s1 = s2 ∧ t1 = t2.
Proof.
  revert s2. induction s1 as [|a s1 IH]; intros [|b s2] Heq Hlen; simpl in *.
  - done.
  - apply (f_equal String.length) in Heq. simpl in Heq.
    rewrite string_length_app in Heq. lia.
  - apply (f_equal String.length) in Heq. simpl in Heq.
    rewrite string_length_app in Heq. lia.
  - injection Heq as -> Heq. destruct (IH _ Heq Hlen) as [-> ->]. done.
Qed.

Lemma pretty_Z_nonneg (n : Z) : (0 ≤ n)%Z → pretty n = pretty (Z.to_N n).
Proof. intros Hn. destruct n; [done..|lia]. Qed.

Lemma pretty_N_small (x : N) :
  (x < 100)%N →
  pretty x = if decide (x < 10)%N then String (pretty_N_char x) ""
             else digits2 x.
Proof.
  intros Hx. unfold pretty, pretty_N, digits2.
  destruct (decide (x = 0)%N) as [->|Hx0]; [done|].
  rewrite pretty_N_go_step by lia.
  destruct (decide (x < 10)%N) as [Hlt|Hge].
  - rewrite (N.div_small x 10), pretty_N_go_0, (N.mod_small x 10) by done. done.
  - rewrite pretty_N_go_step by (apply N.div_str_pos; lia).
    rewrite N.Div0.div_div. change (10 * 10)%N with 100%N.
    rewrite (N.div_small x 100), pretty_N_go_0 by done.
    rewrite (N.mod_small (x `div` 10) 10); [done|].
    apply N.Div0.div_lt_upper_bound. lia.
Qed.

Lemma length_pretty_N_large (x : N) :
  (100 ≤ x)%N → 3 ≤ String.length (pretty x).
Proof.
  intros Hx. unfold pretty, pretty_N. destruct (decide (x = 0)%N); [lia|].
  rewrite pretty_N_go_step by lia.
  rewrite pretty_N_go_step by (apply N.div_str_pos; lia).
  rewrite N.Div0.div_div.
  rewrite pretty_N_go_step by (apply N.div_str_pos; lia).
  etrans; [|apply length_pretty_N_go]. simpl. lia.
Qed.

Lemma format_02d_small (n : Z) :
  (0 ≤ n < 100)%Z → format_02d n = digits2 (Z.to_N n).
Proof.
  intros Hn. unfold format_02d.
  destruct (Z.ltb_spec n 0) as [|_]; [lia|].
  rewrite pretty_Z_nonneg by lia. rewrite pretty_N_small by lia.
  destruct (decide (Z.to_N n < 10)%N) as [Hlt|Hge]; [|done].
  unfold digits2. rewrite N.div_small, N.mod_small by done. done.
Qed.

Lemma format_02d_large (n : Z) :
  (100 ≤ n)%Z → format_02d n = pretty n ∧ 3 ≤ String.length (pretty n).
Proof.
  intros Hn.
  assert (3 ≤ String.length (pretty n)) as Hlen.
  { rewrite pretty_Z_nonneg by lia. apply length_pretty_N_large. lia. }
  split; [|done]. unfold format_02d.
  destruct (Z.ltb_spec n 0) as [|_]; [lia|].
  by replace (2 - String.length (pretty n)) with 0 by lia.
Qed.

Lemma format_02d_negative (n : Z) :
  (n < 0)%Z → ∃ s, format_02d n = String "-" s.
Proof.
  intros Hn. unfold format_02d.
  destruct (Z.ltb_spec n 0) as [_|]; [|lia].
  destruct n as [|p|p]; [lia..|]. by eexists.
Qed.

Lemma pretty_N_char_not_dash (x : N) : pretty_N_char x ≠ "-"%char.
Proof. unfold pretty_N_char. by repeat case_match. Qed.

Lemma format_02d_nonneg_head (n : Z) s :
  (0 ≤ n)%Z → format_02d n ≠ String "-" s.
Proof.
  intros Hn Heq. destruct (decide (n < 100)%Z) as [Hlt|Hge].
  - rewrite format_02d_small in Heq by lia. injection Heq as Heq _.
    by apply pretty_N_char_not_dash in Heq.
  - destruct (format_02d_large n) as [Hf _]; [lia|]. rewrite Hf in Heq.
    destruct n as [|p|p]; [lia| |lia].
    unfold pretty, pretty_Z, pretty, pretty_positive, pretty, pretty_N in Heq.
    simpl in Heq. by apply (pretty_N_go_ne_dash (N.pos p) "" s) in Heq.
Qed.

Lemma digits2_inj (x y : N) :
  (x < 100)%N → (y < 100)%N → digits2 x = digits2 y → x = y.
Proof.
  intros Hx Hy [= H1 H2].
  apply pretty_N_char_inj in H1, H2;
    try (apply N.mod_lt; lia); try (apply N.Div0.div_lt_upper_bound; lia).
  rewrite (N.div_mod x 10), (N.div_mod y 10) by done. lia.
Qed.

Lemma format_02d_inj (a b : Z) : format_02d a = format_02d b → a = b.
Proof.
  intros Heq.
  destruct (decide (a < 0)%Z) as [Ha|Ha], (decide (b < 0)%Z) as [Hb|Hb].
  - unfold format_02d in Heq.
    destruct (Z.ltb_spec a 0); [|lia]. destruct (Z.ltb_spec b 0); [|lia].
    by apply (inj pretty) in Heq.
  - destruct (format_02d_negative a Ha) as [s Hs]. rewrite Hs in Heq.
    symmetry in Heq. apply format_02d_nonneg_head in Heq; [done|lia].
  - destruct (format_02d_negative b Hb) as [s Hs]. rewrite Hs in Heq.
    apply format_02d_nonneg_head in Heq; [done|lia].
  - destruct (decide (a < 100)%Z) as [Ha'|Ha'], (decide (b < 100)%Z) as [Hb'|Hb'].
    + rewrite !format_02d_small in Heq by lia. apply digits2_inj in Heq; lia.
    + rewrite format_02d_small in Heq by lia.
      destruct (format_02d_large b) as [Hf Hlen]; [lia|]. rewrite Hf in Heq.
      apply (f_equal String.length) in Heq. simpl in Heq. lia.
    + rewrite (format_02d_small b) in Heq by lia.
      destruct (format_02d_large a) as [Hf Hlen]; [lia|]. rewrite Hf in Heq.
      apply (f_equal String.length) in Heq. simpl in Heq. lia.
    + destruct (format_02d_large a) as [Hfa _]; [lia|].
      destruct (format_02d_large b) as [Hfb _]; [lia|].
      rewrite Hfa, Hfb in Heq. by apply (inj pretty) in Heq.
Qed.

Lemma format_ms_split (ms : Z) :
  format_ms ms
  = format_02d ((ms `div` 1000) `div` 60)
    +:+ String ":" (digits2 (Z.to_N ((ms `div` 1000) `mod` 60))).
Proof.
  unfold format_ms. cbv zeta.
  rewrite (format_02d_small ((ms `div` 1000) `mod` 60)); [done|].
  pose proof (Z.mod_pos_bound (ms `div` 1000) 60). lia.
Qed.

(** X1: two positions get the same text exactly when they lie in the same
    second, negative positions included. *)
Theorem format_ms_same_second (a b : Z) :
  format_ms a = format_ms b ↔ (a `div` 1000 = b `div` 1000)%Z.
Proof.
  split; [|unfold format_ms; by intros ->].
  rewrite !format_ms_split. intros Heq.
  apply string_app_inv_length in Heq as [Hm Hs]; [|done].
  apply format_02d_inj in Hm.
  assert (digits2 (Z.to_N ((a `div` 1000) `mod` 60))
          = digits2 (Z.to_N ((b `div` 1000) `mod` 60))) as Hd by congruence.
  assert (0 ≤ (a `div` 1000) `mod` 60 < 60 ∧ 0 ≤ (b `div` 1000) `mod` 60 < 60)%Z
    as [Ha Hb] by (split; apply Z.mod_pos_bound; lia).
  assert (Z.to_N ((a `div` 1000) `mod` 60) = Z.to_N ((b `div` 1000) `mod` 60))
    as Hs'.
  { apply digits2_inj; [lia..|done]. }
  rewrite (Z.div_mod (a `div` 1000) 60), (Z.div_mod (b `div` 1000) 60) by done.
  rewrite Hm. f_equal. lia.
Qed.

(** X2: for a position that is not negative the text is the minutes, a
    colon and the seconds on exactly two digits; below a hundred minutes
    it has exactly five characters, from then on more, the minutes being
    written in full. *)
Theorem format_ms_shape (ms : Z) :
  (0 ≤ ms)%Z →
  format_ms ms
  = format_02d (ms `div` 60000)
    +:+ String ":" (digits2 (Z.to_N ((ms `div` 1000) `mod` 60)))
  ∧ ((ms < 6000000)%Z →
     format_ms ms = digits2 (Z.to_N (ms `div` 60000))
                    +:+ String ":" (digits2 (Z.to_N ((ms `div` 1000) `mod` 60)))
     ∧ String.length (format_ms ms) = 5)
  ∧ ((6000000 ≤ ms)%Z → 6 ≤ String.length (format_ms ms)).
Proof.
  intros Hms. rewrite format_ms_split.
  rewrite Z.div_div by lia. change (1000 * 60)%Z with 60000%Z.
  split; [done|]. split.
  - intros Hlt. rewrite format_02d_small; [done|].
    split; [apply Z.div_pos; lia|apply Z.div_lt_upper_bound; lia].
  - intros Hge. destruct (format_02d_large (ms `div` 60000)) as [Hf Hlen].
    { apply Z.div_le_lower_bound; lia. }
    rewrite string_length_app, Hf. simpl. lia.
Qed.

Lemma format_ms_shape_witness :
  format_ms 61000 = "01:01" ∧ String.length (format_ms 61000) = 5.
Proof.
  destruct (format_ms_shape 61000) as (_ & Hshort & _); [lia|].
  destruct Hshort as [Htext Hlen]; [lia|]. split; [|exact Hlen].
  rewrite Htext. vm_compute. reflexivity.
Defined.

(** ** The seek slider *)

Lemma seek_drag_run (evs : list Seek.Event) (s : Seek.State) :
  Seek.scrubbing s = true →
  Forall (λ e, Seek.during_drag e = true) evs →
  Seek.scrubbing (Seek.run evs s) = true
  ∧ ∃ new, Seek.calls (Seek.run evs s) = new ++ Seek.calls s
           ∧ Forall (λ c, Seek.moves c = false) new.
Proof.
  intros Hscrub Hall. revert s Hscrub.
  induction Hall as [|e evs He _ IH]; intros s Hscrub.
  { split; [done|]. by exists []. }
  assert (Seek.scrubbing (Seek.handle e s) = true
          ∧ ∃ one, Seek.calls (Seek.handle e s) = one ++ Seek.calls s
                   ∧ Forall (λ c, Seek.moves c = false) one) as [Hs1 Hone].
  { destruct e; try done; simpl.
    - split; [done|]. eexists [_]. split; [done|]. by repeat constructor.
    - unfold Seek.update_position. rewrite Hscrub. simpl.
      split; [done|]. by exists [].
    - split; [done|]. eexists [_; _]. split; [done|]. by repeat constructor. }
  destruct Hone as (one & Hone & Hquiet).
  destruct (IH _ Hs1) as (Hfin & new & Hnew & Hquiet').
  change (Seek.run (e :: evs) s) with (Seek.run evs (Seek.handle e s)).
  split; [done|]. exists (new ++ one). rewrite Hnew, Hone.
  split; [by rewrite app_assoc|]. by apply Forall_app.
Qed.

(** X3: between the press of the slider and its release, whatever drag,
    position and duration signals arrive, no call moves the slider or the
    playback position; the release then seeks to the released value, once,
    and only if the duration known at that moment is positive. *)
Theorem seek_only_on_release (evs : list Seek.Event) (v : Z) (s : Seek.State) :
  Forall (λ e, Seek.during_drag e = true) evs →
  let dragged := Seek.run (Seek.SliderPressed :: evs) s in
  let released := Seek.run (Seek.SliderPressed :: evs ++ [Seek.SliderReleased v]) s in
  ∃ new,
    Seek.calls dragged = new ++ Seek.calls s
    ∧ Forall (λ c, Seek.moves c = false) new
    ∧ Seek.scrubbing dragged = true
    ∧ Seek.calls released
      = (if (0 <? Seek.duration_ms dragged)%Z then [Seek.PlayerSetPosition v]
         else []) ++ Seek.calls dragged
    ∧ Seek.scrubbing released = false.
Proof.
  intros Hall dragged released.
  destruct (seek_drag_run evs (Seek.on_slider_pressed s) eq_refl Hall)
    as (Hscrub & new & Hnew & Hquiet).
  exists new. fold (Seek.run evs (Seek.on_slider_pressed s)) in *.
  assert (released = Seek.on_slider_released v dragged) as ->.
  { unfold released, dragged, Seek.run. simpl. by rewrite foldl_app. }
  repeat split; try done.
  unfold Seek.on_slider_released. by destruct (0 <? Seek.duration_ms dragged)%Z.
Qed.

Lemma seek_only_on_release_witness :
  let s := Seek.mkState false 90000 [] in
  let evs := [Seek.PositionChanged 1000; Seek.SliderMoved 30000;
              Seek.PositionChanged 2000] in
  Seek.calls (Seek.run (Seek.SliderPressed :: evs ++ [Seek.SliderReleased 30000]) s)
  = [Seek.PlayerSetPosition 30000;
     Seek.TimeLabelSetText "00:30 / 01:30"].
Proof.
  intros s evs.
  destruct (seek_only_on_release evs 30000 s) as (new & _ & _ & _ & Hrel & _).
  { repeat constructor. }
  rewrite Hrel. vm_compute. reflexivity.
Defined.

(** ** Start-up *)





(** ** What a classification does to the filesystem *)

Lemma fs_lookup_fs_set fs d n p :
  fs_lookup (fs_set fs d n) p
  = if is_root p then Some Dir
    else if decide (d = p) then Some n else nodes fs !! p.
Proof.
  unfold fs_lookup, fs_set. simpl. destruct (is_root p); [done|].
  destruct (decide (d = p)) as [->|]; [by rewrite lookup_insert_eq|].
  by rewrite lookup_insert_ne.
Qed.

Lemma fs_lookup_fs_remove fs d p :
  fs_lookup (fs_remove fs d) p
  = if is_root p then Some Dir
    else if decide (d = p) then None else nodes fs !! p.
Proof.
  unfold fs_lookup, fs_remove. simpl. destruct (is_root p); [done|].
  destruct (decide (d = p)) as [->|]; [by rewrite lookup_delete_eq|].
  by rewrite lookup_delete_ne.
Qed.





(** ** Appending to the log and taking the last row off *)

Lemma set_log_same w : set_log (log w) w = w.
Proof. by destruct w. Qed.



(** ** The queue and the growth of the log *)

Lemma read_logged_paths_app rows more :
  rows ≠ [] →
  read_logged_paths (Some rows) ⊆ read_logged_paths (Some (rows ++ more)).
Proof.
  destruct rows as [|fieldnames rows]; [done|]. intros _ p. simpl.
  rewrite !elem_of_read_rows.
  intros [?|(row & Hin & Hrest)]; [by left|]. right. exists row.
  split; [|done]. apply elem_of_app. by left.
Qed.

Lemma filter_sublist_impl {A} (P Q : A → Prop)
    `{∀ x, Decision (P x)} `{∀ x, Decision (Q x)} (l : list A) :
  (∀ x, P x → Q x) → sublist (filter P l) (filter Q l).
Proof.
  intros Himpl. induction l as [|x l IH]; [constructor|].
  rewrite !filter_cons. destruct (decide (P x)) as [HP|HP].
  - rewrite decide_True by auto. by constructor.
  - destruct (decide (Q x)); [by constructor|done].
Qed.

(** X7: rows added to a log that has at least its first row never bring a
    file back nor change the order: the queue built from the longer log is
    a sublist of the queue built from the shorter one. *)
Theorem build_queue_shrinks_as_log_grows sd fs rows more :
  rows ≠ [] →
  sublist (build_queue sd fs (Some (rows ++ more)))
          (build_queue sd fs (Some rows)).
Proof.
  intros Hne. rewrite !build_queue_filter. apply filter_sublist_impl.
  intros p (Hfile & Hext & Hlog). repeat split; [done..|].
  intros Hin. apply Hlog. by apply read_logged_paths_app.
Qed.

Lemma build_queue_shrinks_as_log_grows_witness :
  sublist
    (build_queue "src" Samples.fs0
       (Some ([log_header]
              ++ [["t0"; ""; "skip"; "src/a.mp4"; "src/a.mp4"; "skip"]])))
    (build_queue "src" Samples.fs0 (Some [log_header])).
Proof.
  apply (build_queue_shrinks_as_log_grows "src" Samples.fs0 [log_header]).
  discriminate.
Defined.

(** ** Unplayable media and the next run *)



(** ** A pass of skips *)







(** ** The log and the undo stack over a whole session *)






(** ** The shape of the collision-safe name *)

Lemma rpartition_Some c s b t :
  rpartition c s = Some (b, t) →
  s = b +:+ String c t ∧ rpartition c t = None.
Proof.
  revert b t. induction s as [|a s IH]; intros b t; simpl; [done|].
  destruct (rpartition c s) as [[b' t']|] eqn:Hs.
  - intros [= <- <-]. destruct (IH _ _ eq_refl) as [-> Hnone]. done.
  - destruct (Ascii.eqb_spec a c) as [->|]; [|done]. by intros [= <- <-].
Qed.

Lemma rpartition_last c b t :
  rpartition c t = None → rpartition c (b +:+ String c t) = Some (b, t).
Proof.
  intros Hnone. induction b as [|a b IH]; simpl.
  - by rewrite Hnone, Ascii.eqb_refl.
  - by rewrite IH.
Qed.

Lemma rpartition_None_app c s t :
  rpartition c s = None → rpartition c t = None →
  rpartition c (s +:+ t) = None.
Proof.
  intros Hs Ht. induction s as [|a s IH]; simpl in *; [done|].
  destruct (rpartition c s) as [[]|]; [done|].
  rewrite IH by done. by destruct (Ascii.eqb a c).
Qed.

Lemma rpartition_None_app_inv c s t :
  rpartition c (s +:+ t) = None →
  rpartition c s = None ∧ rpartition c t = None.
Proof.
  induction s as [|a s IH]; simpl; [done|].
  destruct (rpartition c (s +:+ t)) as [[]|]; [done|].
  destruct (IH eq_refl) as [-> Ht]. by destruct (Ascii.eqb a c).
Qed.

Lemma rpartition_None_head c a s :
  rpartition c (String a s) = None → Ascii.eqb a c = false.
Proof.
  simpl. destruct (rpartition c s) as [[]|]; [done|].
  by destruct (Ascii.eqb a c).
Qed.

(** The texts the counter is written with hold digits only. *)
Lemma rpartition_pretty_N_go c x acc :
  (∀ y, pretty_N_char y ≠ c) → rpartition c acc = None →
  rpartition c (pretty_N_go x acc) = None.
Proof.
  intros Hc. revert acc. induction (N.lt_wf_0 x) as [x _ IH]; intros acc Hacc.
  destruct (decide (x = 0)%N) as [->|Hx]; [by rewrite pretty_N_go_0|].
  rewrite pretty_N_go_step by lia. apply IH; [apply N.div_lt; lia|].
  simpl. rewrite Hacc. destruct (Ascii.eqb_spec (pretty_N_char (x `mod` 10)) c);
    [by destruct (Hc (x `mod` 10)%N)|done].
Qed.

Lemma rpartition_zeros c k : c ≠ "0"%char → rpartition c (zeros k) = None.
Proof.
  intros Hc. induction k as [|k IH]; cbn [zeros rpartition]; [done|].
  rewrite IH. destruct (Ascii.eqb_spec "0"%char c) as [Heq|]; [|done].
  by destruct Hc.
Qed.

Lemma rpartition_format_03d c n :
  (∀ y, pretty_N_char y ≠ c) → rpartition c (format_03d n) = None.
Proof.
  intros Hc. unfold format_03d. apply rpartition_None_app.
  - apply rpartition_zeros. intros ->. by apply (Hc 0%N).
  - unfold pretty, pretty_nat, pretty, pretty_N.
    destruct (decide (N.of_nat n = 0)%N).
    + change (rpartition c (String "0" "") = None). cbn [rpartition].
      destruct (Ascii.eqb_spec "0"%char c) as [<-|]; [|done].
      by destruct (Hc 0%N).
    + by apply rpartition_pretty_N_go.
Qed.

Lemma pretty_N_char_not_slash y : pretty_N_char y ≠ "/"%char.
Proof. unfold pretty_N_char. by repeat case_match. Qed.

Lemma pretty_N_char_not_dot y : pretty_N_char y ≠ "."%char.
Proof. unfold pretty_N_char. by repeat case_match. Qed.

Lemma name_no_slash (p : Path) : rpartition "/" (name p) = None.
Proof.
  unfold name. destruct (rpartition "/" p) as [[b t]|] eqn:Hp.
  - by apply rpartition_Some in Hp as [_ Ht].
  - by case_bool_decide.
Qed.

Lemma string_app_nil_r (s : string) : s +:+ "" = s.
Proof. induction s as [|a s IH]; simpl; [done|]. by rewrite IH. Qed.

(** [stem] and [suffix] cut the name in two. *)
Lemma stem_suffix (p : Path) : stem p +:+ suffix p = name p.
Proof.
  unfold stem, suffix.
  destruct (rpartition "." (name p)) as [[b t]|] eqn:Hn.
  - apply rpartition_Some in Hn as [Heq _].
    destruct b as [|a b], t as [|c t]; try apply string_app_nil_r.
    by rewrite Heq.
  - apply string_app_nil_r.
Qed.

Lemma parent_nonempty (p : Path) : parent p ≠ "".
Proof. unfold parent. by repeat case_match. Qed.

(** A name without a slash placed under [parent d]. *)
Lemma joinpath_parent_name (P b : string) :
  P ≠ "" → rpartition "/" b = None → b ≠ "" → b ≠ "." →
  (P = "." ∨ P = "/" ∨ rpartition "/" (P +:+ "/" +:+ b) = Some (P, b)) →
  parent (joinpath P b) = P ∧ name (joinpath P b) = b.
Proof.
  intros HP Hb Hne Hdot Hcases. unfold joinpath.
  assert (is_absolute b = false) as ->.
  { destruct b as [|a b]; [done|]. simpl. by apply rpartition_None_head in Hb. }
  rewrite bool_decide_eq_false_2 by done.
  case_bool_decide as H1.
  { subst P. unfold parent, name. rewrite Hb.
    by rewrite bool_decide_eq_false_2. }
  case_bool_decide as H2.
  { subst P. unfold parent, name.
    change ("/" +:+ b) with ("" +:+ String "/" b).
    rewrite (rpartition_last "/" "" b Hb). done. }
  destruct Hcases as [?|[?|Hsplit]]; [done..|].
  unfold parent, name. rewrite Hsplit. by destruct P.
Qed.

(** X11: the path [ensure_unique_path] returns lies in the directory of
    the desired path; when it is a numbered candidate its name is the stem,
    two underscores, the counter and the suffix of the desired name, and
    when the desired name has a suffix the candidate has the same one, so a
    renamed video keeps its extension. *)
Theorem ensure_unique_path_keeps_directory_and_extension fs d t :
  ensure_unique_path fs d = Some t →
  parent t = parent d
  ∧ (suffix d ≠ "" → suffix t = suffix d)
  ∧ (t ≠ d →
     ∃ counter, 1 ≤ counter
       ∧ name t = stem d +:+ "__" +:+ format_03d counter +:+ suffix d
       ∧ (suffix d ≠ "" → stem t = stem d +:+ "__" +:+ format_03d counter)).
Proof.
  unfold ensure_unique_path, ensure_unique_path_fuel.
  destruct (path_exists fs d); simpl; [|by intros [= <-]].
  intros (r & Hr & -> & _ & _)%unique_loop_spec.
  set (b := stem d +:+ "__" +:+ format_03d r +:+ suffix d).
  pose proof (name_no_slash d) as Hname. rewrite <- stem_suffix in Hname.
  apply rpartition_None_app_inv in Hname as [Hstem Hsuf].
  assert (rpartition "/" b = None) as Hb.
  { unfold b. apply rpartition_None_app; [done|].
    apply (rpartition_None_app "/" "__"); [done|].
    apply rpartition_None_app; [|done].
    apply rpartition_format_03d, pretty_N_char_not_slash. }
  assert (2 ≤ String.length b) as Hlen.
  { unfold b. rewrite !string_length_app. simpl. lia. }
  destruct (joinpath_parent_name (parent d) b) as [Hparent Hnm].
  - apply parent_nonempty.
  - done.
  - intros Heq. rewrite Heq in Hlen. simpl in Hlen. lia.
  - intros Heq. rewrite Heq in Hlen. simpl in Hlen. lia.
  - right. right. change (parent d +:+ "/" +:+ b)
      with (parent d +:+ String "/" b). by apply rpartition_last.
  - change (joinpath (parent d) b) with (candidate d r) in Hparent, Hnm.
    assert (suffix d ≠ "" →
            suffix (candidate d r) = suffix d
            ∧ stem (candidate d r) = stem d +:+ "__" +:+ format_03d r) as Hext.
    { intros Hsd.
      assert (∃ c0 t0, suffix d = String "." (String c0 t0)
                       ∧ rpartition "." (String c0 t0) = None)
        as (c0 & t0 & Hsuf_eq & Htail).
      { unfold suffix in *.
        destruct (rpartition "." (name d)) as [[[|a0 b0] [|c0 t0]]|] eqn:Hdot;
          try done.
        apply rpartition_Some in Hdot as [_ Htail]. by exists c0, t0. }
      unfold suffix at 1, stem at 1. rewrite Hnm.
      assert (b = (stem d +:+ "__" +:+ format_03d r)
                  +:+ String "." (String c0 t0)) as ->.
      { unfold b. by rewrite Hsuf_eq, !string_app_assoc. }
      rewrite (rpartition_last "." _ _ Htail), Hsuf_eq.
      destruct (stem d +:+ "__" +:+ format_03d r) as [|a1 s1] eqn:Hpre; [|done].
      apply (f_equal String.length) in Hpre.
      rewrite !string_length_app in Hpre. simpl in Hpre. lia. }
    split; [done|]. split; [by intros Hsd; apply Hext|].
    intros _. exists r. split; [done|]. split; [done|].
    by intros Hsd; apply Hext.
Qed.

Lemma ensure_unique_path_keeps_directory_and_extension_witness :
  parent "src/a__001.mp4" = parent "src/a.mp4"
  ∧ (suffix "src/a.mp4" ≠ "" → suffix "src/a__001.mp4" = suffix "src/a.mp4").
Proof.
  destruct (ensure_unique_path_keeps_directory_and_extension Samples.fs0
              "src/a.mp4" "src/a__001.mp4") as (Hdir & Hext & _).
  - vm_compute. reflexivity.
  - exact (conj Hdir Hext).
Defined.

(** ** One name taken after the other *)

Lemma path_exists_fs_set fs t n p :
  path_exists (fs_set fs t n) p
  = if decide (t = p) then true else path_exists fs p.
Proof.
  unfold path_exists. rewrite fs_lookup_fs_set. unfold fs_lookup.
  destruct (is_root p); [by destruct (decide (t = p))|].
  by destruct (decide (t = p)).
Qed.

(** X12: when the desired path is taken and the path [ensure_unique_path]
    returned has been filled, the next call for the same desired path
    returns a candidate with a strictly larger counter, every counter in
    between being taken already: files of one name placed one after the
    other get distinct names in counter order. *)
Theorem ensure_unique_path_next_counter fs d t n :
  path_exists fs d = true →
  ensure_unique_path fs d = Some t →
  ∃ r r' t',
    t = candidate d r
    ∧ ensure_unique_path (fs_set fs t n) d = Some t'
    ∧ t' = candidate d r'
    ∧ 1 ≤ r ∧ r < r' ∧ t' ≠ t
    ∧ ∀ k, r < k < r' → path_exists fs (candidate d k) = true.
Proof.
  intros Hd Ht. unfold ensure_unique_path, ensure_unique_path_fuel in Ht.
  rewrite Hd in Ht. simpl in Ht.
  apply unique_loop_spec in Ht as (r & Hr & -> & Hfree & Hused).
  set (fs' := fs_set fs (candidate d r) n).
  destruct (ensure_unique_path_total fs' d) as [t' Ht'].
  assert (path_exists fs' d = true) as Hd'.
  { unfold fs'. rewrite path_exists_fs_set. by case_decide. }
  pose proof Ht' as Hspec.
  unfold ensure_unique_path, ensure_unique_path_fuel in Hspec.
  rewrite Hd' in Hspec. simpl in Hspec.
  apply unique_loop_spec in Hspec as (r' & Hr' & -> & Hfree' & Hused').
  unfold fs' in Hfree'. rewrite path_exists_fs_set in Hfree'.
  case_decide as Hsame; [done|].
  assert (r ≠ r') as Hne by (by intros ->).
  assert (r < r') as Hlt.
  { destruct (decide (r < r')) as [|Hge]; [done|].
    rewrite Hused in Hfree' by lia. done. }
  exists r, r', (candidate d r'). repeat split; try done.
  intros k Hk. specialize (Hused' k). unfold fs' in Hused'.
  rewrite path_exists_fs_set in Hused'. case_decide as Hk'; [|apply Hused'; lia].
  apply candidate_inj in Hk'. lia.
Qed.

Lemma ensure_unique_path_next_counter_witness :
  ∃ r r' t',
    "src/a__001.mp4" = candidate "src/a.mp4" r
    ∧ ensure_unique_path (fs_set Samples.fs0 "src/a__001.mp4" (File "x"))
        "src/a.mp4" = Some t'
    ∧ t' = candidate "src/a.mp4" r'
    ∧ 1 ≤ r ∧ r < r' ∧ t' ≠ "src/a__001.mp4"
    ∧ ∀ k, r < k < r' →
           path_exists Samples.fs0 (candidate "src/a.mp4" k) = true.
Proof.
  apply (ensure_unique_path_next_counter Samples.fs0 "src/a.mp4"
           "src/a__001.mp4" (File "x")); vm_compute; reflexivity.
Defined.

(** ** Witnesses for the undo lemmas *)


Lemma undo_after_classify_filesystem_witness :
  ∃ w2, undo_last (result_world (label_current "t1" Samples.keep Samples.w0))
        = Done w2
        ∧ fs w2 = fs_set (fs_set Samples.fs0 "sorted" Dir) "sorted/keep" Dir.
Proof.
  apply (undo_after_classify_filesystem "t1" Samples.keep Samples.w0 _
           "src/a.mp4");
    [reflexivity | reflexivity | vm_compute; reflexivity
    | vm_compute; reflexivity | vm_compute; reflexivity
    | vm_compute; discriminate].
Defined.

(** ** A log under another header *)

Lemma lookup_foldl_insert_pairs (kvs : list (string * string))
    (d : gmap string (option string)) (k : string) :
  k ∉ kvs.*1 →
  foldl (λ d kv, <[kv.1 := Some kv.2]> d) d kvs !! k = d !! k.
Proof.
  revert d. induction kvs as [|[k' v] kvs IH]; intros d Hk; simpl; [done|].
  rewrite fmap_cons, not_elem_of_cons in Hk. destruct Hk as [Hne Hk]. simpl in Hne.
  rewrite IH by done. by rewrite lookup_insert_ne.
Qed.

Lemma lookup_foldl_insert_keys (ks : list string)
    (d : gmap string (option string)) (k : string) :
  k ∉ ks → foldl (λ d k', <[k' := None]> d) d ks !! k = d !! k.
Proof.
  revert d. induction ks as [|k' ks IH]; intros d Hk; simpl; [done|].
  rewrite not_elem_of_cons in Hk. destruct Hk as [Hne Hk].
  rewrite IH by done. by rewrite lookup_insert_ne.
Qed.

Lemma row_get_missing_field (fieldnames row : list string) (k : string) :
  k ∉ fieldnames → row_get (dict_of_row fieldnames row) k = None.
Proof.
  intros Hk. unfold row_get, dict_of_row.
  rewrite lookup_foldl_insert_keys.
  - rewrite lookup_foldl_insert_pairs; [by rewrite lookup_empty|].
    intros Hin. apply Hk. apply list_elem_of_fmap in Hin as ([k' v] & -> & Hin).
    by apply elem_of_zip_l in Hin.
  - intros Hin. apply Hk. by apply (subseteq_drop (length row) fieldnames).
Qed.

(** X15: when the first row of the log does not hold the field name
    [original_path], [read_logged_paths] finds no path whatever the other
    rows are, and start-up queues the same files as without a log. *)
Theorem foreign_header_excludes_nothing sd fs fieldnames rows :
  "original_path" ∉ fieldnames →
  read_logged_paths (Some (fieldnames :: rows)) = ∅
  ∧ build_queue sd fs (Some (fieldnames :: rows)) = build_queue sd fs None.
Proof.
  intros Hk.
  assert (read_logged_paths (Some (fieldnames :: rows)) = ∅) as Hempty.
  { apply set_eq. intros p. simpl. rewrite elem_of_read_rows. split.
    - intros [?|(row & _ & _ & _ & Hget)]; [done|].
      by rewrite row_get_missing_field in Hget.
    - intros Hin. by apply not_elem_of_empty in Hin. }
  split; [done|]. unfold build_queue. by rewrite Hempty.
Qed.

Lemma foreign_header_excludes_nothing_witness :
  build_queue "src" Samples.fs0
    (Some [["when"; "file"]; ["t0"; "src/a.mp4"]])
  = build_queue "src" Samples.fs0 None.
Proof.
  apply (foreign_header_excludes_nothing "src" Samples.fs0 ["when"; "file"]
           [["t0"; "src/a.mp4"]]).
  vm_compute. intros Hin. repeat (apply elem_of_cons in Hin as [Hin|Hin];
    [discriminate|]). by apply not_elem_of_nil in Hin.
Defined.
